(** * seatingchart: a shallow embedding of [seatingchart.py]

    The [SeatingChart] class assigns a roster of named individuals to groups
    under "together" pairs, "apart" pairs, a maximal group size and a
    maximal number of groups.  Every method of the class that takes part in
    chart generation is transcribed below as a function over an explicit
    object record, under the name it has in the source (without the leading
    underscores).

    - Names are strings, a group is a list of names and a chart a list of
      groups.  A pair is a sequence of exactly two names, as [__handle_apart]
      unpacks it.
    - Python integers are in [Z]; lengths are converted by [len].
    - A method that may raise returns a [result]: the exception class or the
      value.  The public methods also return the object as the call leaves
      it, so that what a failed call has changed can be read off.
    - [copy.deepcopy] is the identity on values.
    - The two sources of unspecified order in the Python code, the iteration
      order of a [set] and [random.shuffle], are parameters [set_order] and
      [shuffle] of the development.  The theorems assume of them only that
      the first enumerates the set and the second permutes its argument. *)

From Stdlib Require Import String Ascii Bool ZArith Lia Arith.
From Stdlib Require Import List Permutation Sorted.
From Stdlib Require DecimalString.
Import ListNotations.

Local Open Scope string_scope.
Local Open Scope Z_scope.
Local Open Scope list_scope.

(** ** Data model *)

(** [Group = List[str]], [Chart = List[Group]].  A pair of the [together]
    and [apart] lists is a two-element sequence of names. *)
Abbreviation Group := (list string) (only parsing).
Abbreviation Chart := (list (list string)) (only parsing).
Abbreviation Pair := (string * string)%type (only parsing).

(** The pair seen as the Python list it is. *)
Definition pair_list (p : Pair) : Group := [fst p; snd p].

(** The exception classes the module raises.  [PositiveInteger],
    [GroupConflict] and [InvalidRequest] are the module's own subclasses of
    [ValueError]; [TypeError] and [ValueError] are the built-in ones. *)
Inductive Error : Type :=
| TypeError
| ValueError
| PositiveInteger
| GroupConflict
| InvalidRequest.

(** A computation that returns a value or raises. *)
Definition result (A : Type) : Type := (Error + A)%type.

Definition Ok {A : Type} (a : A) : result A := inr a.
Definition Raise {A : Type} (e : Error) : result A := inl e.

Definition bind {A B : Type} (m : result A) (k : A -> result B) : result B :=
  match m with
  | inl e => inl e
  | inr a => k a
  end.

Notation "x <- m ;; k" := (bind m (fun x => k))
  (at level 61, m at next level, right associativity).

(** A value passed for [max_size] or [num_groups]: [None], an [int], or a
    value of any other type ([bool], [str], [float], ...). *)
Inductive PyNumber : Type :=
| PyNone
| PyInt (n : Z)
| PyNotInt.

(** The attributes of a [SeatingChart] object; [chart_cache] is the private
    [__chart] attribute. *)
Record SeatingChart : Type := mkSeatingChart {
  together : option (list Pair);
  apart : option (list Pair);
  max_size : option Z;
  num_groups : option Z;
  roster : option (list string);
  chart_cache : option Chart
}.

(** ** Helpers standing for Python built-ins *)

(** [item in group] *)
Definition mem (item : string) (group : Group) : bool :=
  existsb (String.eqb item) group.

(** [len(l)] as a Python integer. *)
Definition len {A : Type} (l : list A) : Z := Z.of_nat (length l).

Definition group_eqb (g1 g2 : Group) : bool :=
  if list_eq_dec string_dec g1 g2 then true else false.

(** [l.index(x)]: position of the first element equal to [x].  The callers
    only look up elements of [l]. *)
Fixpoint index_of {A : Type} (eqb : A -> A -> bool) (x : A) (l : list A) : nat :=
  match l with
  | [] => 0%nat
  | y :: l' => if eqb y x then 0%nat else S (index_of eqb x l')
  end.

(** [l.remove(x)]: drops the first element equal to [x]. *)
Fixpoint list_remove (x : Group) (l : Chart) : Chart :=
  match l with
  | [] => []
  | y :: l' => if group_eqb y x then l' else y :: list_remove x l'
  end.

(** [chart[index] += [item]] *)
Fixpoint extend_at (index : nat) (item : string) (chart : Chart) : Chart :=
  match chart, index with
  | [], _ => []
  | g :: rest, O => (g ++ [item]) :: rest
  | g :: rest, S i => g :: extend_at i item rest
  end.

(** [max(l)] and [min(l)] of a list with head [x] and tail [l]. *)
Definition max_of (x : Z) (l : list Z) : Z := fold_left Z.max l x.
Definition min_of (x : Z) (l : list Z) : Z := fold_left Z.min l x.

(** [sorted(groups, key=len, reverse=True)]: a stable sort, so groups of
    equal length keep their relative order. *)
Fixpoint insert_by_len (g : Group) (sorted : Chart) : Chart :=
  match sorted with
  | [] => [g]
  | h :: t =>
      if (length h <=? length g)%nat then g :: h :: t
      else h :: insert_by_len g t
  end.

Definition sorted_by_len_desc (groups : Chart) : Chart :=
  fold_right insert_by_len [] groups.

(** [sorted(names)]: strings compare character by character. *)
Fixpoint insert_name (x : string) (sorted : list string) : list string :=
  match sorted with
  | [] => [x]
  | h :: t => if String.leb x h then x :: h :: t else h :: insert_name x t
  end.

Definition sorted_names (names : list string) : list string :=
  fold_right insert_name [] names.

(** [set(pair_1) == set(pair_2)] *)
Definition same_set (p1 p2 : Pair) : bool :=
  forallb (fun x => mem x (pair_list p2)) (pair_list p1)
  && forallb (fun x => mem x (pair_list p1)) (pair_list p2).

(** ** Validation methods that do not depend on iteration order *)

(** [__validate_integer_inputs] *)
Definition validate_integer_inputs (number : PyNumber) : result (option Z) :=
  match number with
  | PyNone => Ok None
  | PyNotInt => Raise TypeError
  | PyInt n => if n <? 1 then Raise PositiveInteger else Ok (Some n)
  end.

(** [__validate_together_apart]: the loop over
    [itertools.product(together, apart)] raises at the first collision. *)
Definition validate_together_apart (together apart : option (list Pair))
  : result (option (list Pair) * option (list Pair)) :=
  match together, apart with
  | Some tl, Some al =>
      if existsb (fun pair_1 => existsb (fun pair_2 => same_set pair_1 pair_2) al) tl
      then Raise GroupConflict
      else Ok (together, apart)
  | _, _ => Ok (together, apart)
  end.

(** [__validate_group_size] *)
Definition validate_group_size (self : SeatingChart) (chart : Chart) : result unit :=
  match chart with
  | [] => Ok tt
  | g :: rest =>
      match max_size self with
      | Some m =>
          if m <? max_of (len g) (map len rest) then Raise ValueError else Ok tt
      | None => Ok tt
      end
  end.

(** [__validate_number_of_groups] *)
Definition validate_number_of_groups (self : SeatingChart) (chart : Chart)
  : result unit :=
  match num_groups self with
  | Some n => if n <? len chart then Raise InvalidRequest else Ok tt
  | None => Ok tt
  end.

(** ** Placement helpers *)

(** [__get_nested_index]: the index of the group that holds [item], [None]
    when no group does, [ValueError] when several do. *)
Definition get_nested_index (item : string) (chart : Chart) : result (option nat) :=
  let index :=
    map (fun i => index_of group_eqb i chart) (filter (fun i => mem item i) chart) in
  match index with
  | [] => Ok None
  | [k] => Ok (Some k)
  | _ => Raise ValueError
  end.

(** In [__append_item]: [apart_pair.remove(item); apart_pair[0]]. *)
Definition conflict_item (item : string) (apart_pair : Pair) : string :=
  if String.eqb (fst apart_pair) item then snd apart_pair else fst apart_pair.

(** The inner loop of [__append_item] over [self.apart]. *)
Definition can_add_item_to_group (apart_pairs : list Pair) (item : string)
  (group : Group) : bool :=
  forallb
    (fun apart_pair =>
       if mem item (pair_list apart_pair)
       then negb (mem (conflict_item item apart_pair) group)
       else true)
    apart_pairs.

(** The outer loop of [__append_item]: the chart with [item] added to the
    first group that accepts it, [None] when no group does. *)
Fixpoint append_scan (apart_pairs : list Pair) (limit : option Z) (item : string)
  (chart : Chart) : option Chart :=
  match chart with
  | [] => None
  | group :: rest =>
      if mem item group then
        option_map (cons group) (append_scan apart_pairs limit item rest)
      else if can_add_item_to_group apart_pairs item group then
        match limit with
        | Some m =>
            if m <=? len group then
              option_map (cons group) (append_scan apart_pairs limit item rest)
            else Some ((group ++ [item]) :: rest)
        | None => Some ((group ++ [item]) :: rest)
        end
      else option_map (cons group) (append_scan apart_pairs limit item rest)
  end.

(** [__append_item].  With [self.apart] absent the loop over it raises as
    soon as a group that lacks [item] is reached. *)
Definition append_item (self : SeatingChart) (item : string) (chart : Chart)
  : result Chart :=
  match apart self with
  | None =>
      if forallb (mem item) chart then Ok (chart ++ [[item]]) else Raise TypeError
  | Some apart_pairs =>
      match append_scan apart_pairs (max_size self) item chart with
      | Some chart' => Ok chart'
      | None => Ok (chart ++ [[item]])
      end
  end.

(** [__balance_nested_list] *)
Definition balance_nested_list (self : SeatingChart) (item : string) (chart : Chart)
  : result Chart :=
  match chart with
  | [] => Ok [[item]]
  | g :: rest =>
      let group_sizes := map len chart in
      let all_same_len := (length (nodup Z.eq_dec group_sizes) =? 1)%nat in
      let max_group_size := max_of (len g) (map len rest) in
      let num_current_groups := len chart in
      let index_min_size :=
        index_of Z.eqb (min_of (len g) (map len rest)) group_sizes in
      if match max_size self with
         | Some m => m <? max_group_size
         | None => false
         end
      then Raise InvalidRequest
      else if match num_groups self, max_size self with
              | Some n, Some m => (n <? num_current_groups) && (m <? max_group_size)
              | _, _ => false
              end
      then Raise GroupConflict
      else if match num_groups self with
              | Some n => num_current_groups <? n
              | None => false
              end
      then Ok (chart ++ [[item]])
      else if match max_size self with
              | Some m => all_same_len && (m <=? max_group_size)
              | None => false
              end
      then Ok (chart ++ [[item]])
      else Ok (extend_at index_min_size item chart)
  end.

(** [for item in items: chart = step(item, chart)] with a step that may raise. *)
Fixpoint for_each {A : Type} (step : A -> Chart -> result Chart) (items : list A)
  (chart : Chart) : result Chart :=
  match items with
  | [] => Ok chart
  | item :: items' => chart' <- step item chart ;; for_each step items' chart'
  end.

(** In [__validate_roster]: the individuals named by the pairs of
    [self.together] and [self.apart], in the order the loops meet them. *)
Definition all_together_apart (self : SeatingChart) : list string :=
  flat_map pair_list (match together self with Some l => l | None => [] end)
  ++ flat_map pair_list (match apart self with Some l => l | None => [] end).

(** In [__validate_roster]: [if roster is None: roster = []]. *)
Definition names_or_empty (names : option (list string)) : list string :=
  match names with
  | Some l => l
  | None => []
  end.

(** The pairs (x0,x1), (x1,x2), ... of a list of names: a chain of
    overlapping pairs in the order of the list. *)
Definition chain (names : list string) : list Pair :=
  combine names (tl names).

(** ** Chart generation *)

Section Generation.

(** [set_order l] is the order in which Python iterates over the set built
    from the elements [l]; [shuffle] is [random.shuffle].  The language
    fixes neither: the theorems below assume only that the first lists each
    element of the set once and that the second permutes its argument. *)
Variable set_order : list string -> list string.
Variable shuffle : list string -> list string.

(** One iteration of the loop of [__handle_together] over [self.together]. *)
Definition together_step (groups : Chart) (pair : Pair) : Chart :=
  match groups with
  | [] => [pair_list pair]
  | _ =>
      match find (fun group => mem (fst pair) group || mem (snd pair) group) groups with
      | Some group =>
          let group_pair_union := set_order (pair_list pair ++ group) in
          list_remove group groups ++ [group_pair_union]
      | None => groups ++ [pair_list pair]
      end
  end.

(** [__handle_together] *)
Definition handle_together (self : SeatingChart) : Chart :=
  match together self with
  | None => []
  | Some pairs => sorted_by_len_desc (fold_left together_step pairs [])
  end.

(** One iteration of the loop of [__handle_apart] over [self.apart]. *)
Definition apart_step (self : SeatingChart) (pair : Pair) (chart : Chart)
  : result Chart :=
  let '(item_1, item_2) := pair in
  item_1_index <- get_nested_index item_1 chart ;;
  item_2_index <- get_nested_index item_2 chart ;;
  match chart with
  | [] => Ok [[item_1]; [item_2]]
  | _ =>
      match item_1_index, item_2_index with
      (* both placed: case 2 when the indices differ; when they are equal no
         branch of the source applies and the chart is left as it is *)
      | Some _, Some _ => Ok chart
      | None, Some _ => append_item self item_1 chart
      | Some _, None => append_item self item_2 chart
      | None, None =>
          chart' <- append_item self item_1 chart ;;
          append_item self item_2 chart'
      end
  end.

(** [__handle_apart] *)
Definition handle_apart (self : SeatingChart) (chart : Chart) : result Chart :=
  match apart self with
  | None => Ok chart
  | Some pairs => for_each (apart_step self) pairs chart
  end.

(** [__handle_remaining] *)
Definition handle_remaining (self : SeatingChart) (chart : Chart) : result Chart :=
  let already_placed := concat chart in
  match roster self with
  | None => Raise TypeError
  | Some names =>
      let remaining :=
        set_order (filter (fun name => negb (mem name already_placed)) names) in
      for_each (balance_nested_list self) (shuffle remaining) chart
  end.

(** [__generate_chart] *)
Definition generate_chart (self : SeatingChart) : result Chart :=
  let chart_1 := handle_together self in
  chart_2 <- handle_apart self chart_1 ;;
  _ <- validate_group_size self chart_2 ;;
  chart_3 <- handle_remaining self chart_2 ;;
  _ <- validate_number_of_groups self chart_3 ;;
  Ok chart_3.

(** [__validate_roster], reading the validated [together] and [apart]. *)
Definition validate_roster (self : SeatingChart) (names : option (list string))
  : option (list string) :=
  match all_together_apart self with
  | [] => names
  | _ =>
      Some (sorted_names (set_order (names_or_empty names ++ all_together_apart self)))
  end.

(** [__init__] *)
Definition init (names : option (list string)) (together apart : option (list Pair))
  (max_size num_groups : PyNumber) : result SeatingChart :=
  ta <- validate_together_apart together apart ;;
  m <- validate_integer_inputs max_size ;;
  n <- validate_integer_inputs num_groups ;;
  let self := mkSeatingChart (fst ta) (snd ta) m n None None in
  Ok (mkSeatingChart (fst ta) (snd ta) m n (validate_roster self names) None).

End Generation.

(** ** Public methods

    A method call returns what the call returns or raises, together with
    the object as the call leaves it.  Every call that regenerates the chart
    gets its own [shuffle], the generator's state having moved on. *)

(** The [chart] property. *)
Definition chart (set_order shuffle : list string -> list string)
  (self : SeatingChart) : result Chart * SeatingChart :=
  match chart_cache self with
  | Some c => (Ok c, self)
  | None =>
      match generate_chart set_order shuffle self with
      | inl e => (Raise e, self)
      | inr c =>
          (Ok c,
           mkSeatingChart (together self) (apart self) (max_size self)
             (num_groups self) (roster self) (Some c))
      end
  end.

(** [new] *)
Definition new (set_order shuffle : list string -> list string)
  (self : SeatingChart) : result Chart * SeatingChart :=
  match generate_chart set_order shuffle self with
  | inl e => (Raise e, self)
  | inr c =>
      (Ok c,
       mkSeatingChart (together self) (apart self) (max_size self)
         (num_groups self) (roster self) (Some c))
  end.

(** An argument of [update]: left at its default [False], or given. *)
Inductive UpdateArg : Type :=
| Unchanged
| Given (value : PyNumber).

(** [update] *)
Definition update (set_order shuffle : list string -> list string)
  (new_max_size new_num_groups : UpdateArg) (self : SeatingChart)
  : result unit * SeatingChart :=
  match
    match new_max_size with
    | Unchanged => Ok self
    | Given v =>
        m <- validate_integer_inputs v ;;
        Ok (mkSeatingChart (together self) (apart self) m (num_groups self)
              (roster self) (chart_cache self))
    end
  with
  | inl e => (Raise e, self)
  | inr self1 =>
      match
        match new_num_groups with
        | Unchanged => Ok self1
        | Given v =>
            n <- validate_integer_inputs v ;;
            Ok (mkSeatingChart (together self1) (apart self1) (max_size self1) n
                  (roster self1) (chart_cache self1))
        end
      with
      | inl e => (Raise e, self1)
      | inr self2 =>
          match generate_chart set_order shuffle self2 with
          | inl e => (Raise e, self2)
          | inr c =>
              (Ok tt,
               mkSeatingChart (together self2) (apart self2) (max_size self2)
                 (num_groups self2) (roster self2) (Some c))
          end
      end
  end.

(** [__len__]: the number of groups of the chart, read through the [chart]
    property. *)
Definition len_method (set_order shuffle : list string -> list string)
  (self : SeatingChart) : result Z * SeatingChart :=
  match chart set_order shuffle self with
  | (inl e, self') => (Raise e, self')
  | (inr c, self') => (Ok (len c), self')
  end.

(** [==] on charts: lists of lists of strings compare element by element. *)
Definition chart_eqb (c1 c2 : Chart) : bool :=
  if list_eq_dec (list_eq_dec string_dec) c1 c2 then true else false.

(** The right operand of [==]: the object itself, or another object. *)
Inductive Operand : Type :=
| Itself
| Another (other : SeatingChart).

(** [__eq__]: [self.chart == other.chart], the left chart read first.  The
    call returns the comparison and leaves both objects as the two reads
    left them; when [other] is [self] the second read meets what the first
    one cached. *)
Definition eq_method (set_order shuffle shuffle' : list string -> list string)
  (self : SeatingChart) (other : Operand)
  : result bool * SeatingChart * Operand :=
  match chart set_order shuffle self with
  | (inl e, self') => (Raise e, self', other)
  | (inr c1, self') =>
      match other with
      | Itself =>
          match chart set_order shuffle' self' with
          | (inl e, self'') => (Raise e, self'', Itself)
          | (inr c2, self'') => (Ok (chart_eqb c1 c2), self'', Itself)
          end
      | Another o =>
          match chart set_order shuffle' o with
          | (inl e, o') => (Raise e, self', Another o')
          | (inr c2, o') => (Ok (chart_eqb c1 c2), self', Another o')
          end
      end
  end.

(** ** Output methods *)

(** The line feed that ends each line of the printed chart. *)
Definition newline : string := String (ascii_of_nat 10) EmptyString.

(** [str(n)] of a natural number: its decimal digits. *)
Definition decimal (n : nat) : string :=
  DecimalString.NilZero.string_of_uint (Nat.to_uint n).

(** [__list_to_oxford_comma]: ["A"], ["A and B"], ["A, B, and C"]. *)
Definition list_to_oxford_comma (group : Group) : string :=
  if (length group <? 2)%nat then String.concat " " group
  else if (length group =? 2)%nat then String.concat " and " group
  else
    String.append (String.concat ", " (removelast group))
      (String.append ", and " (last group "")).

(** The loop of [pretty] over [enumerate(self.chart)], from position
    [index] on. *)
Fixpoint group_lines (index : nat) (c : Chart) : string :=
  match c with
  | [] => ""
  | group :: rest =>
      String.append
        (String.append
           (String.append (String.append "    Group " (decimal (index + 1))) ": ")
           (String.append (list_to_oxford_comma group) newline))
        (group_lines (S index) rest)
  end.

(** [pretty]: the header and one line per group of the chart, which is read
    through the [chart] property. *)
Definition pretty (set_order shuffle : list string -> list string)
  (self : SeatingChart) : result string * SeatingChart :=
  match chart set_order shuffle self with
  | (inl e, self') => (Raise e, self')
  | (inr c, self') =>
      (Ok (String.append (String.append "Seating Chart:" newline) (group_lines 0 c)),
       self')
  end.

(** ** A concrete iteration order

    One admissible choice for the two orders, used to run the functions on
    examples: a set is iterated in first-insertion order, and the shuffle
    leaves the list as it is. *)
Definition insertion_order (l : list string) : list string :=
  rev (nodup string_dec (rev l)).

Definition no_shuffle (l : list string) : list string := l.

(** An object whose chart is cached and whose next regeneration fails: the
    pair ("A","B") must sit together, and [update(max_size=1)] is asked. *)
Definition cached_pair_object : SeatingChart :=
  mkSeatingChart (Some [("A", "B")]) None None None (Some ["A"; "B"])
    (Some [["A"; "B"]]).

(** An object whose together list is the chain A-B, B-C, C-D. *)
Definition chain_object : SeatingChart :=
  mkSeatingChart (Some (chain ["A"; "B"; "C"; "D"])) None None None
    (Some ["A"; "B"; "C"; "D"]) None.

(** The object of the test suite's fixtures: eight individuals, two together
    pairs and two apart pairs. *)
Definition fixture_object : SeatingChart :=
  mkSeatingChart
    (Some [("Amy", "Bob"); ("Gail", "Hank")])
    (Some [("Amy", "Dan"); ("Dan", "Felix")])
    None None
    (Some ["Amy"; "Bob"; "Cara"; "Dan"; "Emma"; "Felix"; "Gail"; "Hank"])
    None.

(** The chart of [fixture_object] at first-insertion order and without
    shuffling. *)
Definition fixture_chart : Chart :=
  [["Amy"; "Bob"; "Felix"; "Cara"]; ["Gail"; "Hank"; "Dan"; "Emma"]].

(** ** Predicates of the statements *)

(** Ascending order of names, weak and strict. *)
Definition name_le (a b : string) : Prop := String.leb a b = true.
Definition name_lt (a b : string) : Prop := String.ltb a b = true.

(** [grows c c']: every group of [c] is contained in a group of [c']. *)
Definition grows (c c' : Chart) : Prop :=
  forall g, In g c -> exists g', In g' c' /\ incl g g'.

(** Some group of the chart holds both [a] and [b]. *)
Definition share_group (c : Chart) (a b : string) : Prop :=
  exists g, In g c /\ In a g /\ In b g.

(** Some group of the chart holds [x]. *)
Definition placed (c : Chart) (x : string) : Prop := In x (concat c).

(** The group holds at most one member of each pair of [pairs]. *)
Definition conflict_free (pairs : list Pair) (g : Group) : Prop :=
  forall a b, In (a, b) pairs -> ~ (In a g /\ In b g).

(** No group of the chart holds both members of a pair of [pairs]. *)
Definition separated (pairs : list Pair) (c : Chart) : Prop :=
  Forall (conflict_free pairs) c.

(** No pair of [pairs] names one individual twice. *)
Definition proper_pairs (pairs : list Pair) : Prop :=
  forall a b, In (a, b) pairs -> a <> b.

(** [item] is a member of no pair of [pairs]. *)
Definition unconstrained (pairs : list Pair) (item : string) : Prop :=
  forall a b, In (a, b) pairs -> a <> item /\ b <> item.

(** What validation at construction establishes: the limits are positive,
    no together pair collides with an apart pair, and, when the pairs name
    somebody, the roster is present, ascending, and holds everyone named. *)
Definition well_formed (self : SeatingChart) : Prop :=
  (forall m, max_size self = Some m -> 1 <= m)
  /\ (forall n, num_groups self = Some n -> 1 <= n)
  /\ (forall tl al pair_1 pair_2,
         together self = Some tl -> apart self = Some al ->
         In pair_1 tl -> In pair_2 al -> same_set pair_1 pair_2 = false)
  /\ (all_together_apart self <> [] ->
      exists names,
        roster self = Some names
        /\ Sorted name_lt names
        /\ forall x, In x (all_together_apart self) -> In x names).

(** The two objects have the same pairs and the same roster. *)
Definition same_constraints (self self' : SeatingChart) : Prop :=
  together self' = together self
  /\ apart self' = apart self
  /\ roster self' = roster self.

(** The two objects differ at most in the cached chart. *)
Definition same_configuration (self self' : SeatingChart) : Prop :=
  same_constraints self self'
  /\ max_size self' = max_size self
  /\ num_groups self' = num_groups self.

(** The limits as they stand on a chart. *)
Definition within_limits (self : SeatingChart) (c : Chart) : Prop :=
  (forall n, num_groups self = Some n -> len c <= n)
  /\ (forall m, max_size self = Some m -> Forall (fun g => len g <= m) c).


(** The pairs, met in order, each name two distinct individuals of whom at
    most one was named before ([seen] holds those named before). *)
Fixpoint introduces_someone (seen : list string) (pairs : list Pair) : Prop :=
  match pairs with
  | [] => True
  | (a, b) :: rest =>
      a <> b /\ ~ (In a seen /\ In b seen)
      /\ introduces_someone (a :: b :: seen) rest
  end.

(** No two groups of the chart differ in size by more than one. *)
Definition balanced (c : Chart) : Prop :=
  forall g1 g2, In g1 c -> In g2 c -> len g1 <= len g2 + 1.

(** The chart is a run of groups of exactly [m] members, followed by at
    most one group that is not empty and has fewer. *)
Definition filled (m : Z) (c : Chart) : Prop :=
  exists fulls partial,
    c = fulls ++ partial
    /\ Forall (fun g => len g = m) fulls
    /\ (partial = [] \/ exists p, partial = [p] /\ 1 <= len p < m).

(** The text [x] occurs in the text [s]. *)
Definition occurs (x s : string) : Prop :=
  exists before after, s = String.append before (String.append x after).


(** ** Basic facts about the helpers *)

Lemma Ok_inj {A : Type} (x y : A) : Ok x = inr y -> x = y.
Proof. unfold Ok. intros H. now injection H. Qed.

(** From [H : Ok x = inr y], replace [y] by [x] everywhere. *)
Ltac ok_inv H :=
  first [apply Ok_inj in H | simpl in H; injection H as H];
  match type of H with _ = ?y => subst y end.

Lemma mem_In (x : string) (g : Group) : mem x g = true <-> In x g.
Proof.
  unfold mem. rewrite existsb_exists. split.
  - intros [y [Hy Heq]]. apply String.eqb_eq in Heq. now subst.
  - intros H. exists x. split; [assumption | apply String.eqb_refl].
Qed.

Lemma mem_false (x : string) (g : Group) : mem x g = false <-> ~ In x g.
Proof.
  rewrite <- mem_In. destruct (mem x g); intuition congruence.
Qed.

Lemma same_set_spec (p1 p2 : Pair) :
  same_set p1 p2 = true <->
  (forall x, In x (pair_list p1) <-> In x (pair_list p2)).
Proof.
  unfold same_set. rewrite andb_true_iff, !forallb_forall. split.
  - intros [H12 H21] x. split; intro Hx.
    + apply mem_In, H12, Hx.
    + apply mem_In, H21, Hx.
  - intros H. split; intros x Hx; apply mem_In, H, Hx.
Qed.

Lemma validate_together_apart_GroupConflict
  (t a : option (list Pair)) :
  validate_together_apart t a = inl GroupConflict <->
  exists tl al pair_1 pair_2,
    t = Some tl /\ a = Some al /\ In pair_1 tl /\ In pair_2 al /\
    same_set pair_1 pair_2 = true.
Proof.
  unfold validate_together_apart. split.
  - destruct t as [tl|]; [| discriminate]. destruct a as [al|]; [| discriminate].
    destruct (existsb _ tl) eqn:E; [| discriminate]. intros _.
    apply existsb_exists in E. destruct E as [p1 [H1 E]].
    apply existsb_exists in E. destruct E as [p2 [H2 E]].
    exists tl, al, p1, p2. auto.
  - intros (tl & al & p1 & p2 & -> & -> & H1 & H2 & E).
    replace (existsb _ tl) with true; [reflexivity |].
    symmetry. apply existsb_exists. exists p1. split; [assumption |].
    apply existsb_exists. exists p2. auto.
Qed.

Lemma validate_integer_inputs_not_GroupConflict (v : PyNumber) :
  validate_integer_inputs v <> inl GroupConflict.
Proof.
  destruct v as [| n |]; simpl; try discriminate.
  destruct (n <? 1); discriminate.
Qed.

(** ** Construction *)

(** C8: construction raises [GroupConflict] exactly when a pair of the
    together list and a pair of the apart list hold the same individuals as
    sets; with either list absent or empty the collision check raises
    nothing and hands both lists back. *)
Theorem init_GroupConflict_iff_collision :
  forall (set_order : list string -> list string) (names : option (list string))
         (t a : option (list Pair)) (m n : PyNumber),
    (init set_order names t a m n = inl GroupConflict <->
     exists tl al pair_1 pair_2,
       t = Some tl /\ a = Some al /\ In pair_1 tl /\ In pair_2 al /\
       (forall x, In x (pair_list pair_1) <-> In x (pair_list pair_2)))
    /\ (t = None \/ t = Some [] \/ a = None \/ a = Some [] ->
        validate_together_apart t a = inr (t, a)).
Proof.
  intros set_order names t a m n. split.
  - split.
    + intros H. unfold init in H.
      destruct (validate_together_apart t a) as [e | ta] eqn:Eta; simpl in H.
      * injection H as ->.
        apply validate_together_apart_GroupConflict in Eta.
        destruct Eta as (tl & al & p1 & p2 & Ht & Ha & H1 & H2 & E).
        exists tl, al, p1, p2. rewrite <- same_set_spec. auto.
      * exfalso.
        destruct (validate_integer_inputs m) as [e | m'] eqn:Em; simpl in H.
        { apply (validate_integer_inputs_not_GroupConflict m). congruence. }
        destruct (validate_integer_inputs n) as [e | n'] eqn:En; simpl in H.
        { apply (validate_integer_inputs_not_GroupConflict n). congruence. }
        discriminate.
    + intros (tl & al & p1 & p2 & Ht & Ha & H1 & H2 & E).
      apply same_set_spec in E.
      assert (Eta : validate_together_apart t a = inl GroupConflict).
      { apply validate_together_apart_GroupConflict. exists tl, al, p1, p2. auto. }
      unfold init. rewrite Eta. reflexivity.
  - unfold validate_together_apart.
    intros [-> | [-> | [-> | ->]]]; try reflexivity.
    + destruct a; reflexivity.
    + destruct t; reflexivity.
    + destruct t as [tl|]; [| reflexivity].
      replace (existsb _ tl) with false; [reflexivity |].
      symmetry. induction tl as [| p tl IH]; simpl; auto.
Qed.

(** C8 at concrete lists: the pair given in both lists (in either order)
    makes construction fail, and an empty apart list passes the check. *)
Lemma init_GroupConflict_iff_collision_witness :
  init insertion_order None (Some [("A", "B")]) (Some [("B", "A")]) PyNone PyNone
    = inl GroupConflict
  /\ validate_together_apart (Some [("A", "B")]) (Some [])
     = inr (Some [("A", "B")], Some []).
Proof.
  split.
  - apply (proj1 (init_GroupConflict_iff_collision insertion_order None
                    (Some [("A", "B")]) (Some [("B", "A")]) PyNone PyNone)).
    exists [("A", "B")], [("B", "A")], ("A", "B"), ("B", "A").
    repeat split; simpl; intuition.
  - apply (proj2 (init_GroupConflict_iff_collision insertion_order None
                    (Some [("A", "B")]) (Some []) PyNone PyNone)).
    right. right. right. reflexivity.
Defined.

(** C10: an object built with every argument absent raises [TypeError] on
    the first access of its chart, and nothing is cached. *)
Theorem chart_of_empty_object_raises_TypeError :
  forall set_order shuffle : list string -> list string,
    exists self,
      init set_order None None None PyNone PyNone = inr self
      /\ roster self = None
      /\ chart set_order shuffle self = (inl TypeError, self).
Proof.
  intros set_order shuffle. eexists. split; [reflexivity |].
  split; reflexivity.
Qed.

(** ** The balancer's error checks *)

(** C6: when [num_groups] is set and exceeded by the number of groups and
    [max_size] is set and exceeded by the largest group, the balancer raises
    [InvalidRequest]: the check on [max_size] alone comes first and fires,
    so the [GroupConflict] of the combined check is not what is raised. *)
Theorem balance_exceeded_limits_raise_InvalidRequest :
  forall (self : SeatingChart) (item : string) (g : Group) (rest : Chart) (n m : Z),
    num_groups self = Some n ->
    max_size self = Some m ->
    n < len (g :: rest) ->
    m < max_of (len g) (map len rest) ->
    balance_nested_list self item (g :: rest) = inl InvalidRequest
    /\ balance_nested_list self item (g :: rest) <> inl GroupConflict.
Proof.
  intros self item g rest n m Hn Hm Hgroups Hsize.
  assert (E : balance_nested_list self item (g :: rest) = inl InvalidRequest).
  { unfold balance_nested_list. rewrite Hm.
    apply Z.ltb_lt in Hsize. rewrite Hsize. reflexivity. }
  split; [exact E | rewrite E; discriminate].
Qed.

(** C6 on two groups of sizes 2 and 1 with [max_size = 1], [num_groups = 1]. *)
Lemma balance_exceeded_limits_raise_InvalidRequest_witness :
  balance_nested_list (mkSeatingChart None None (Some 1) (Some 1) None None)
    "d" [["a"; "b"]; ["c"]] = inl InvalidRequest
  /\ balance_nested_list (mkSeatingChart None None (Some 1) (Some 1) None None)
       "d" [["a"; "b"]; ["c"]] <> inl GroupConflict.
Proof.
  apply (balance_exceeded_limits_raise_InvalidRequest
           (mkSeatingChart None None (Some 1) (Some 1) None None)
           "d" ["a"; "b"] [["c"]] 1 1);
    [reflexivity | reflexivity | vm_compute; reflexivity | vm_compute; reflexivity].
Defined.

(** X1: the balancer raises [GroupConflict] on no input at all: the branch
    that would raise it stands behind a check that has already raised. *)
Theorem balance_never_raises_GroupConflict :
  forall (self : SeatingChart) (item : string) (chart : Chart),
    balance_nested_list self item chart <> inl GroupConflict.
Proof.
  intros self item [| g rest]; [discriminate |].
  unfold balance_nested_list.
  destruct (max_size self) as [m |], (num_groups self) as [n |];
    repeat match goal with
           | |- context [if ?b then _ else _] => destruct b eqn:?
           end;
    try discriminate;
    repeat match goal with
           | H : (_ && _)%bool = true |- _ => apply andb_true_iff in H; destruct H
           end;
    congruence.
Qed.

(** The three assertions of the repository's [test_balance_nested_list]:
    without limits the smallest group is filled; with [max_size = 3] and
    three full groups a group is opened; with [num_groups = 3] reached the
    first of the equal groups is filled. *)
Example test_balance_nested_list :
  balance_nested_list (mkSeatingChart None None None None None None) "1"
    [["0"; "0"; "0"; "0"]; ["0"; "0"; "0"]; ["0"; "0"]]
  = inr [["0"; "0"; "0"; "0"]; ["0"; "0"; "0"]; ["0"; "0"; "1"]]
  /\ balance_nested_list (mkSeatingChart None None (Some 3) None None None) "1"
       [["0"; "0"; "0"]; ["0"; "0"; "0"]; ["0"; "0"; "0"]]
     = inr [["0"; "0"; "0"]; ["0"; "0"; "0"]; ["0"; "0"; "0"]; ["1"]]
  /\ balance_nested_list (mkSeatingChart None None None (Some 3) None None) "1"
       [["0"; "0"; "0"]; ["0"; "0"; "0"]; ["0"; "0"; "0"]]
     = inr [["0"; "0"; "0"; "1"]; ["0"; "0"; "0"]; ["0"; "0"; "0"]].
Proof. repeat split. Qed.

(** ** The cached chart under a failed regeneration *)

(** C9: when [new()] or [update(...)] raises, the cached chart is the one
    from before the call, and a later read of [chart] on an object that had
    a chart cached returns that chart without regenerating. *)
Theorem failed_regeneration_keeps_cached_chart :
  forall (set_order shuffle shuffle' : list string -> list string)
         (new_max_size new_num_groups : UpdateArg)
         (self self' : SeatingChart) (e : Error),
    (new set_order shuffle self = (inl e, self')
     \/ update set_order shuffle new_max_size new_num_groups self = (inl e, self')) ->
    chart_cache self' = chart_cache self
    /\ forall c, chart_cache self = Some c ->
                 chart set_order shuffle' self' = (inr c, self').
Proof.
  intros set_order shuffle shuffle' ms ng self self' e H.
  assert (Hcache : chart_cache self' = chart_cache self).
  { destruct H as [H | H].
    - unfold new in H.
      destruct (generate_chart set_order shuffle self); inversion H; reflexivity.
    - unfold update in H.
      destruct ms as [| v]; [| destruct (validate_integer_inputs v) as [e1 | m]];
        simpl in H; try (inversion H; reflexivity);
        (destruct ng as [| w]; [| destruct (validate_integer_inputs w) as [e2 | n]]);
        simpl in H; try (inversion H; reflexivity);
        match type of H with
        | context [generate_chart ?a ?b ?c] => destruct (generate_chart a b c)
        end; inversion H; reflexivity. }
  split; [exact Hcache |].
  intros c Hc. unfold chart. rewrite Hcache, Hc. reflexivity.
Qed.

(** C9 on [cached_pair_object]: [update(max_size=1)] raises, the size limit
    stays changed, and the chart read afterwards is the cached one. *)
Lemma failed_regeneration_keeps_cached_chart_witness :
  let self' :=
    mkSeatingChart (Some [("A", "B")]) None (Some 1) None (Some ["A"; "B"])
      (Some [["A"; "B"]]) in
  update insertion_order no_shuffle (Given (PyInt 1)) Unchanged cached_pair_object
    = (inl ValueError, self')
  /\ chart_cache self' = chart_cache cached_pair_object
  /\ chart insertion_order no_shuffle self' = (inr [["A"; "B"]], self').
Proof.
  cbv zeta. split; [reflexivity |].
  pose proof (failed_regeneration_keeps_cached_chart insertion_order no_shuffle
                no_shuffle (Given (PyInt 1)) Unchanged cached_pair_object
                (mkSeatingChart (Some [("A", "B")]) None (Some 1) None
                   (Some ["A"; "B"]) (Some [["A"; "B"]]))
                ValueError (or_intror eq_refl)) as [Hcache Hread].
  split; [exact Hcache | apply Hread; reflexivity].
Defined.

(** ** Sorting names *)

Lemma insert_name_perm (x : string) (l : list string) :
  Permutation (insert_name x l) (x :: l).
Proof.
  induction l as [| h t IH]; simpl.
  - apply Permutation_refl.
  - destruct (String.leb x h).
    + apply Permutation_refl.
    + apply perm_trans with (h :: x :: t).
      * apply perm_skip, IH.
      * apply perm_swap.
Qed.

Lemma sorted_names_perm (l : list string) : Permutation (sorted_names l) l.
Proof.
  induction l as [| x l IH]; simpl.
  - apply perm_nil.
  - apply perm_trans with (x :: sorted_names l).
    + apply insert_name_perm.
    + apply perm_skip, IH.
Qed.

Lemma insert_name_HdRel (a x : string) (l : list string) :
  name_le a x -> HdRel name_le a l -> HdRel name_le a (insert_name x l).
Proof.
  intros Hax Hal. destruct l as [| h t]; simpl.
  - constructor. exact Hax.
  - destruct (String.leb x h); constructor.
    + exact Hax.
    + inversion Hal; assumption.
Qed.

Lemma insert_name_sorted (x : string) (l : list string) :
  Sorted name_le l -> Sorted name_le (insert_name x l).
Proof.
  induction 1 as [| h t Hsorted IH Hhd]; simpl.
  - repeat constructor.
  - destruct (String.leb x h) eqn:E.
    + constructor; [constructor; assumption | constructor; exact E].
    + constructor; [exact IH |].
      apply insert_name_HdRel; [| exact Hhd].
      destruct (String.leb_total x h) as [H | H]; [congruence | exact H].
Qed.

Lemma sorted_names_sorted (l : list string) : Sorted name_le (sorted_names l).
Proof.
  induction l as [| x l IH]; simpl.
  - constructor.
  - apply insert_name_sorted, IH.
Qed.

Lemma name_le_neq_lt (a b : string) : name_le a b -> a <> b -> name_lt a b.
Proof.
  unfold name_le, name_lt, String.leb, String.ltb. intros Hle Hneq.
  destruct (String.compare a b) eqn:E; try reflexivity; try discriminate.
  elim Hneq. apply String.compare_eq_iff, E.
Qed.

Lemma sorted_nodup_strict (l : list string) :
  Sorted name_le l -> NoDup l -> Sorted name_lt l.
Proof.
  induction 1 as [| h t Hsorted IH Hhd]; intros Hnodup.
  - constructor.
  - inversion Hnodup as [| ? ? Hnotin Hnodup']; subst.
    constructor; [apply IH, Hnodup' |].
    destruct t as [| h' t']; constructor.
    apply name_le_neq_lt.
    + inversion Hhd; assumption.
    + intros ->. apply Hnotin. left. reflexivity.
Qed.

(** ** Facts that hold for every iteration order of a set *)

Section Orders.

Variable set_order : list string -> list string.
Variable shuffle : list string -> list string.

Hypothesis set_order_perm :
  forall l, Permutation (set_order l) (nodup string_dec l).
Hypothesis shuffle_perm : forall l, Permutation (shuffle l) l.

Lemma set_order_In (l : list string) (x : string) :
  In x (set_order l) <-> In x l.
Proof.
  rewrite <- (nodup_In string_dec l x). split; apply Permutation_in.
  - apply set_order_perm.
  - apply Permutation_sym, set_order_perm.
Qed.

Lemma set_order_NoDup (l : list string) : NoDup (set_order l).
Proof.
  apply Permutation_NoDup with (nodup string_dec l).
  - apply Permutation_sym, set_order_perm.
  - apply NoDup_nodup.
Qed.

Lemma set_order_nil : set_order [] = [].
Proof.
  apply Permutation_nil, Permutation_sym, (set_order_perm []).
Qed.

Lemma shuffle_nil : shuffle [] = [].
Proof.
  apply Permutation_nil, Permutation_sym, (shuffle_perm []).
Qed.

Lemma validate_roster_named (self : SeatingChart) (names : option (list string)) :
  all_together_apart self <> [] ->
  exists sorted,
    validate_roster set_order self names = Some sorted
    /\ Sorted name_lt sorted
    /\ forall x, In x sorted <->
                 In x (names_or_empty names) \/ In x (all_together_apart self).
Proof.
  intros Hne. unfold validate_roster.
  destruct (all_together_apart self) as [| y l] eqn:E; [congruence |].
  rewrite <- E. clear E Hne y l.
  eexists. split; [reflexivity |]. split.
  - apply sorted_nodup_strict; [apply sorted_names_sorted |].
    apply Permutation_NoDup
      with (set_order (names_or_empty names ++ all_together_apart self)).
    + apply Permutation_sym, sorted_names_perm.
    + apply set_order_NoDup.
  - intros x. split; intro Hx.
    + apply in_app_iff, set_order_In.
      eapply Permutation_in; [apply sorted_names_perm | exact Hx].
    + eapply Permutation_in; [apply Permutation_sym, sorted_names_perm |].
      apply set_order_In, in_app_iff, Hx.
Qed.

End Orders.

(** ** Roster validation *)

(** C7 (as the code has it): the roster comes back exactly as given when
    the pairs name nobody; as soon as they name somebody, whether or not the
    roster already holds them, what comes back is the roster joined with
    the named individuals, each once, in ascending lexicographic order. *)
Theorem validate_roster_as_given_or_sorted_union :
  forall (set_order : list string -> list string),
    (forall l, Permutation (set_order l) (nodup string_dec l)) ->
    forall (self : SeatingChart) (names : option (list string)),
      (all_together_apart self = [] ->
       validate_roster set_order self names = names)
      /\ (all_together_apart self <> [] ->
          exists sorted,
            validate_roster set_order self names = Some sorted
            /\ Sorted name_lt sorted
            /\ forall x, In x sorted <->
                         In x (names_or_empty names) \/ In x (all_together_apart self)).
Proof.
  intros set_order Hset self names. split.
  - intros E. unfold validate_roster. rewrite E. reflexivity.
  - apply validate_roster_named, Hset.
Qed.

Lemma insertion_order_perm (l : list string) :
  Permutation (insertion_order l) (nodup string_dec l).
Proof.
  unfold insertion_order. apply NoDup_Permutation.
  - apply NoDup_rev, NoDup_nodup.
  - apply NoDup_nodup.
  - intros x. rewrite <- in_rev, !nodup_In, <- in_rev. reflexivity.
Qed.

Lemma no_shuffle_perm (l : list string) : Permutation (no_shuffle l) l.
Proof. apply Permutation_refl. Qed.

(** C7 on the roster ["B"; "A"]: without pairs it comes back as given, with
    the pair ("A","B") it comes back sorted. *)
Lemma validate_roster_as_given_or_sorted_union_witness :
  validate_roster insertion_order
    (mkSeatingChart None None None None None None) (Some ["B"; "A"])
  = Some ["B"; "A"]
  /\ exists sorted,
       validate_roster insertion_order
         (mkSeatingChart (Some [("A", "B")]) None None None None None)
         (Some ["B"; "A"]) = Some sorted
       /\ Sorted name_lt sorted
       /\ forall x, In x sorted <-> In x ["B"; "A"] \/ In x ["A"; "B"].
Proof.
  split.
  - apply (proj1 (validate_roster_as_given_or_sorted_union insertion_order
                    insertion_order_perm
                    (mkSeatingChart None None None None None None)
                    (Some ["B"; "A"]))).
    reflexivity.
  - apply (proj2 (validate_roster_as_given_or_sorted_union insertion_order
                    insertion_order_perm
                    (mkSeatingChart (Some [("A", "B")]) None None None None None)
                    (Some ["B"; "A"]))).
    discriminate.
Defined.

(** C7 fails as stated: the roster ["B"; "A"] already holds both members of
    the together pair ("A","B"), and yet it is not returned as given. *)
Lemma validate_roster_sorts_a_complete_roster :
  (forall x,
      In x (all_together_apart (mkSeatingChart (Some [("A", "B")]) None None None None None)) ->
      In x ["B"; "A"])
  /\ validate_roster insertion_order
       (mkSeatingChart (Some [("A", "B")]) None None None None None)
       (Some ["B"; "A"]) = Some ["A"; "B"]
  /\ Some ["A"; "B"] <> Some ["B"; "A"].
Proof.
  split; [| split].
  - simpl. intuition.
  - reflexivity.
  - discriminate.
Qed.

(** ** Balancing the remaining individuals *)

Lemma len_app {A : Type} (l1 l2 : list A) : len (l1 ++ l2) = len l1 + len l2.
Proof. unfold len. rewrite length_app. lia. Qed.

Lemma len_cons {A : Type} (x : A) (l : list A) : len (x :: l) = 1 + len l.
Proof. unfold len. simpl length. lia. Qed.

Lemma len_nonneg {A : Type} (l : list A) : 0 <= len l.
Proof. unfold len. lia. Qed.

Lemma extend_at_length (index : nat) (item : string) (chart : Chart) :
  length (extend_at index item chart) = length chart.
Proof.
  revert index. induction chart as [| g rest IH]; intros [| i]; simpl; auto.
Qed.

Lemma filter_id {A : Type} (f : A -> bool) (l : list A) :
  (forall x, f x = true) -> filter f l = l.
Proof.
  intros Hf. induction l as [| x l IH]; simpl; [reflexivity |].
  rewrite Hf. f_equal. exact IH.
Qed.

(** With only [num_groups] set, one insertion opens a group while fewer
    than [num_groups] exist and fills the smallest group afterwards. *)
Lemma balance_num_groups_only (self : SeatingChart) (item : string) (chart : Chart)
  (k : Z) :
  max_size self = None -> num_groups self = Some k -> 1 <= k ->
  exists chart',
    balance_nested_list self item chart = inr chart'
    /\ len chart' = if len chart <? k then len chart + 1 else len chart.
Proof.
  intros Hmax Hnum Hk. destruct chart as [| g rest].
  - exists [[item]]. split; [reflexivity |].
    replace (len (@nil Group) <? k) with true; [reflexivity |].
    symmetry. apply Z.ltb_lt. unfold len. simpl. lia.
  - unfold balance_nested_list. rewrite Hmax, Hnum. cbv beta iota zeta.
    destruct (len (g :: rest) <? k).
    + eexists. split; [reflexivity |]. rewrite len_app. reflexivity.
    + eexists. split; [reflexivity |]. unfold len. now rewrite extend_at_length.
Qed.

Lemma for_each_balance_num_groups (self : SeatingChart) (k : Z)
  (items : list string) :
  max_size self = None -> num_groups self = Some k -> 1 <= k ->
  forall chart,
    len chart <= k ->
    exists chart',
      for_each (balance_nested_list self) items chart = inr chart'
      /\ len chart' = Z.min k (len chart + len items).
Proof.
  intros Hmax Hnum Hk. induction items as [| item items IH]; intros chart Hle.
  - exists chart. split; [reflexivity |]. change (len (@nil string)) with 0. lia.
  - destruct (balance_num_groups_only self item chart k Hmax Hnum Hk)
      as (chart1 & E1 & L1).
    simpl. rewrite E1. simpl.
    destruct (len chart <? k) eqn:Elt.
    + apply Z.ltb_lt in Elt.
      destruct (IH chart1) as (chart' & E & L); [lia |].
      exists chart'. split; [exact E |]. rewrite L, L1, len_cons. lia.
    + apply Z.ltb_ge in Elt.
      destruct (IH chart1) as (chart' & E & L); [lia |].
      exists chart'. split; [exact E |]. rewrite L, L1, len_cons.
      pose proof (len_nonneg items). lia.
Qed.

(** With [max_size = 1] and groups of one individual each, an insertion
    always opens a group. *)
Lemma max_of_ones (sizes : list Z) :
  Forall (fun z => z = 1) sizes -> max_of 1 sizes = 1.
Proof.
  unfold max_of. induction 1 as [| z l Hz _ IH]; simpl; [reflexivity |].
  subst z. exact IH.
Qed.

Lemma nodup_ones (sizes : list Z) :
  Forall (fun z => z = 1) sizes -> nodup Z.eq_dec (1 :: sizes) = [1].
Proof.
  induction 1 as [| z l Hz _ IH]; [reflexivity |].
  subst z. simpl in *. destruct (Z.eq_dec 1 1) as [_ | Hneq]; [| now elim Hneq].
  exact IH.
Qed.

Lemma singleton_sizes (chart : Chart) :
  Forall (fun g => length g = 1%nat) chart ->
  Forall (fun z => z = 1) (map len chart).
Proof.
  induction 1 as [| g rest Hg _ IH]; simpl; constructor; [| exact IH].
  unfold len. rewrite Hg. reflexivity.
Qed.

Lemma balance_max_size_one (self : SeatingChart) (item : string) (chart : Chart) :
  max_size self = Some 1 -> num_groups self = None ->
  Forall (fun g => length g = 1%nat) chart ->
  balance_nested_list self item chart = inr (chart ++ [[item]]).
Proof.
  intros Hmax Hnum Hall. destruct chart as [| g rest]; [reflexivity |].
  pose proof (singleton_sizes _ Hall) as Hsizes. simpl in Hsizes.
  inversion Hsizes as [| z l Hg Hrest]; subst.
  unfold balance_nested_list. rewrite Hmax, Hnum. cbv beta iota zeta.
  change (map len (g :: rest)) with (len g :: map len rest).
  rewrite Hg, (max_of_ones _ Hrest), (nodup_ones _ Hrest). reflexivity.
Qed.

Lemma for_each_balance_max_size_one (self : SeatingChart) (items : list string) :
  max_size self = Some 1 -> num_groups self = None ->
  forall chart,
    Forall (fun g => length g = 1%nat) chart ->
    for_each (balance_nested_list self) items chart
    = inr (chart ++ map (fun item => [item]) items).
Proof.
  intros Hmax Hnum. induction items as [| item items IH]; intros chart Hall; simpl.
  - now rewrite app_nil_r.
  - rewrite (balance_max_size_one self item chart Hmax Hnum Hall). simpl.
    rewrite IH.
    + now rewrite <- app_assoc.
    + apply Forall_app. split; [exact Hall | repeat constructor].
Qed.

Lemma concat_singletons (items : list string) :
  concat (map (fun item => [item]) items) = items.
Proof.
  induction items as [| x l IH]; simpl; [reflexivity | now rewrite IH].
Qed.

(** Without pairs, generation is the balancing of the whole roster, in the
    shuffled order, from the empty chart, followed by the group count check. *)
Lemma generate_chart_without_pairs
  (set_order shuffle : list string -> list string)
  (self : SeatingChart) (names : list string) :
  together self = None -> apart self = None -> roster self = Some names ->
  generate_chart set_order shuffle self =
  (chart_3 <- for_each (balance_nested_list self) (shuffle (set_order names)) [] ;;
   _ <- validate_number_of_groups self chart_3 ;;
   Ok chart_3).
Proof.
  intros Ht Ha Hr.
  unfold generate_chart, handle_together, handle_apart, handle_remaining.
  rewrite Ht, Ha, Hr. simpl.
  rewrite filter_id; [reflexivity | intros x; reflexivity].
Qed.

Lemma shuffled_roster_perm
  (set_order shuffle : list string -> list string) (names : list string) :
  (forall l, Permutation (set_order l) (nodup string_dec l)) ->
  (forall l, Permutation (shuffle l) l) ->
  NoDup names ->
  Permutation (shuffle (set_order names)) names.
Proof.
  intros Hset Hshuffle Hnodup.
  apply perm_trans with (set_order names); [apply Hshuffle |].
  rewrite <- (nodup_fixed_point string_dec Hnodup) at 2. apply Hset.
Qed.

(** C4: a roster of distinct individuals with [num_groups = k],
    [1 <= k <= N], and nothing else set, yields a chart of exactly [k]
    groups. *)
Theorem num_groups_alone_yields_that_many_groups :
  forall (set_order shuffle : list string -> list string),
    (forall l, Permutation (set_order l) (nodup string_dec l)) ->
    (forall l, Permutation (shuffle l) l) ->
    forall (names : list string) (k : Z),
      NoDup names ->
      1 <= k <= len names ->
      exists self c,
        init set_order (Some names) None None PyNone (PyInt k) = inr self
        /\ fst (chart set_order shuffle self) = inr c
        /\ len c = k.
Proof.
  intros set_order shuffle Hset Hshuffle names k Hnodup [Hk1 HkN].
  set (self := mkSeatingChart None None None (Some k) (Some names) None).
  assert (Einit : init set_order (Some names) None None PyNone (PyInt k) = inr self).
  { unfold init. simpl. replace (k <? 1) with false; [reflexivity |].
    symmetry. apply Z.ltb_ge. lia. }
  destruct (for_each_balance_num_groups self k (shuffle (set_order names))
              eq_refl eq_refl Hk1 []) as (c & Ec & Lc).
  { change (len (@nil Group)) with 0. lia. }
  assert (Hlen : len (shuffle (set_order names)) = len names).
  { unfold len. f_equal. apply Permutation_length.
    apply shuffled_roster_perm; assumption. }
  rewrite Hlen in Lc. change (len (@nil Group)) with 0 in Lc.
  assert (Lk : len c = k) by lia.
  exists self, c. split; [exact Einit |]. split; [| exact Lk].
  unfold chart. simpl chart_cache. cbv iota.
  rewrite (generate_chart_without_pairs set_order shuffle self names eq_refl eq_refl eq_refl).
  assert (Ek : (k <? len c) = false) by (apply Z.ltb_ge; lia).
  rewrite Ec. simpl. unfold validate_number_of_groups. simpl num_groups.
  cbv beta iota. rewrite Ek. reflexivity.
Qed.

(** C4 on a roster of three with [num_groups = 2]. *)
Lemma num_groups_alone_yields_that_many_groups_witness :
  exists self c,
    init insertion_order (Some ["Amy"; "Bob"; "Cara"]) None None PyNone (PyInt 2)
      = inr self
    /\ fst (chart insertion_order no_shuffle self) = inr c
    /\ len c = 2.
Proof.
  apply (num_groups_alone_yields_that_many_groups insertion_order no_shuffle
           insertion_order_perm no_shuffle_perm ["Amy"; "Bob"; "Cara"] 2).
  - repeat constructor; simpl; intuition discriminate.
  - vm_compute. split; discriminate.
Defined.

(** C5: a roster of distinct individuals with [max_size = 1] and nothing
    else set yields one group per individual, each holding that individual
    alone; the groups come in the shuffled order of the roster. *)
Theorem max_size_one_yields_singleton_groups :
  forall (set_order shuffle : list string -> list string),
    (forall l, Permutation (set_order l) (nodup string_dec l)) ->
    (forall l, Permutation (shuffle l) l) ->
    forall (names : list string),
      NoDup names ->
      exists self c,
        init set_order (Some names) None None (PyInt 1) PyNone = inr self
        /\ fst (chart set_order shuffle self) = inr c
        /\ len c = len names
        /\ Forall (fun g => len g = 1) c
        /\ Permutation (concat c) names.
Proof.
  intros set_order shuffle Hset Hshuffle names Hnodup.
  set (self := mkSeatingChart None None (Some 1) None (Some names) None).
  pose proof (shuffled_roster_perm set_order shuffle names Hset Hshuffle Hnodup)
    as Hperm.
  exists self, (map (fun item => [item]) (shuffle (set_order names))).
  split; [reflexivity |]. split; [| split; [| split]].
  - unfold chart. simpl chart_cache. cbv iota.
    rewrite (generate_chart_without_pairs set_order shuffle self names eq_refl eq_refl eq_refl).
    rewrite (for_each_balance_max_size_one self _ eq_refl eq_refl []); [| constructor].
    reflexivity.
  - unfold len. rewrite length_map. f_equal. apply Permutation_length, Hperm.
  - apply Forall_forall. intros g Hg. apply in_map_iff in Hg.
    destruct Hg as [x [<- _]]. reflexivity.
  - rewrite concat_singletons. exact Hperm.
Qed.

(** C5 on a roster of three. *)
Lemma max_size_one_yields_singleton_groups_witness :
  exists self c,
    init insertion_order (Some ["Amy"; "Bob"; "Cara"]) None None (PyInt 1) PyNone
      = inr self
    /\ fst (chart insertion_order no_shuffle self) = inr c
    /\ len c = len ["Amy"; "Bob"; "Cara"]
    /\ Forall (fun g => len g = 1) c
    /\ Permutation (concat c) ["Amy"; "Bob"; "Cara"].
Proof.
  apply (max_size_one_yields_singleton_groups insertion_order no_shuffle
           insertion_order_perm no_shuffle_perm ["Amy"; "Bob"; "Cara"]).
  repeat constructor; simpl; intuition discriminate.
Defined.

(** ** Groups only grow

    Every stage after the seeding of the chart maps a chart to one it grows
    into, which is what keeps together pairs together. *)

Lemma grows_refl (c : Chart) : grows c c.
Proof. intros g Hg. exists g. split; [exact Hg | apply incl_refl]. Qed.

Lemma grows_trans (c1 c2 c3 : Chart) : grows c1 c2 -> grows c2 c3 -> grows c1 c3.
Proof.
  intros H12 H23 g Hg.
  destruct (H12 g Hg) as (g2 & Hg2 & Hincl2).
  destruct (H23 g2 Hg2) as (g3 & Hg3 & Hincl3).
  exists g3. split; [exact Hg3 | eapply incl_tran; eassumption].
Qed.

Lemma grows_nil (c : Chart) : grows [] c.
Proof. intros g []. Qed.

Lemma grows_app_r (c extra : Chart) : grows c (c ++ extra).
Proof.
  intros g Hg. exists g. split; [apply in_or_app; now left | apply incl_refl].
Qed.

Lemma grows_cons (g : Group) (c c' : Chart) : grows c c' -> grows (g :: c) (g :: c').
Proof.
  intros H g0 [<- | Hg0].
  - exists g. split; [now left | apply incl_refl].
  - destruct (H g0 Hg0) as (g' & Hg' & Hincl). exists g'. split; [now right | exact Hincl].
Qed.

Lemma grows_extend_head (g : Group) (item : string) (rest : Chart) :
  grows (g :: rest) ((g ++ [item]) :: rest).
Proof.
  intros g0 [<- | Hg0].
  - exists (g ++ [item]). split; [now left | apply incl_appl, incl_refl].
  - exists g0. split; [now right | apply incl_refl].
Qed.

Lemma share_group_grows (c c' : Chart) (a b : string) :
  grows c c' -> share_group c a b -> share_group c' a b.
Proof.
  intros Hgrows (g & Hg & Ha & Hb).
  destruct (Hgrows g Hg) as (g' & Hg' & Hincl).
  exists g'. repeat split; [exact Hg' | apply Hincl, Ha | apply Hincl, Hb].
Qed.

Lemma extend_at_grows (index : nat) (item : string) (c : Chart) :
  grows c (extend_at index item c).
Proof.
  revert index. induction c as [| g rest IH]; intros index.
  - apply grows_nil.
  - destruct index as [| i]; simpl.
    + apply grows_extend_head.
    + apply grows_cons, IH.
Qed.

Lemma balance_grows (self : SeatingChart) (item : string) (c c' : Chart) :
  balance_nested_list self item c = inr c' -> grows c c'.
Proof.
  destruct c as [| g rest]; [intros _; apply grows_nil |].
  unfold balance_nested_list.
  repeat match goal with
         | |- context [if ?b then _ else _] => destruct b
         end;
    intros H; try discriminate; ok_inv H;
    first [apply (grows_app_r (g :: rest) [[item]]) | apply extend_at_grows].
Qed.

Lemma append_scan_grows (pairs : list Pair) (limit : option Z) (item : string)
  (c c' : Chart) :
  append_scan pairs limit item c = Some c' -> grows c c'.
Proof.
  revert c'. induction c as [| g rest IH]; intros c'; simpl; [discriminate |].
  assert (Hskip : option_map (cons g) (append_scan pairs limit item rest) = Some c' ->
                  grows (g :: rest) c').
  { destruct (append_scan pairs limit item rest) as [rest' |]; [| discriminate].
    intros H. ok_inv H. apply grows_cons, IH. reflexivity. }
  destruct (mem item g); [exact Hskip |].
  destruct (can_add_item_to_group pairs item g); [| exact Hskip].
  destruct limit as [m |].
  - destruct (m <=? len g); [exact Hskip |].
    intros H. ok_inv H. apply grows_extend_head.
  - intros H. ok_inv H. apply grows_extend_head.
Qed.

Lemma append_item_grows (self : SeatingChart) (item : string) (c c' : Chart) :
  append_item self item c = inr c' -> grows c c'.
Proof.
  unfold append_item. destruct (apart self) as [pairs |].
  - destruct (append_scan pairs (max_size self) item c) as [c1 |] eqn:E;
      intros H; ok_inv H.
    + eapply append_scan_grows, E.
    + apply grows_app_r.
  - destruct (forallb (mem item) c); [| discriminate].
    intros H. ok_inv H. apply grows_app_r.
Qed.

Lemma for_each_grows {A : Type} (step : A -> Chart -> result Chart) :
  (forall item c c', step item c = inr c' -> grows c c') ->
  forall items c c', for_each step items c = inr c' -> grows c c'.
Proof.
  intros Hstep. induction items as [| item items IH]; intros c c'; simpl.
  - intros H. ok_inv H. apply grows_refl.
  - destruct (step item c) as [e | c1] eqn:E; simpl; [discriminate |].
    intros H. eapply grows_trans; [eapply Hstep, E | apply IH, H].
Qed.

Lemma apart_step_grows (self : SeatingChart) (pair : Pair) (c c' : Chart) :
  apart_step self pair c = inr c' -> grows c c'.
Proof.
  destruct pair as [item_1 item_2]. unfold apart_step.
  destruct (get_nested_index item_1 c) as [e | i1]; simpl; [discriminate |].
  destruct (get_nested_index item_2 c) as [e | i2]; simpl; [discriminate |].
  destruct c as [| g rest]; [intros _; apply grows_nil |].
  destruct i1 as [n1 |], i2 as [n2 |].
  - intros H. ok_inv H. apply grows_refl.
  - apply append_item_grows.
  - apply append_item_grows.
  - destruct (append_item self item_1 (g :: rest)) as [e | c1] eqn:E; simpl;
      [discriminate |].
    intros H. eapply grows_trans; eapply append_item_grows; eassumption.
Qed.

Lemma handle_apart_grows (self : SeatingChart) (c c' : Chart) :
  handle_apart self c = inr c' -> grows c c'.
Proof.
  unfold handle_apart. destruct (apart self) as [pairs |].
  - apply for_each_grows. intros pair. apply apart_step_grows.
  - intros H. ok_inv H. apply grows_refl.
Qed.

Lemma handle_remaining_grows (set_order shuffle : list string -> list string)
  (self : SeatingChart) (c c' : Chart) :
  handle_remaining set_order shuffle self c = inr c' -> grows c c'.
Proof.
  unfold handle_remaining. destruct (roster self) as [names |]; [| discriminate].
  apply for_each_grows. intros item. apply balance_grows.
Qed.

(** The final chart grows out of the together stage's chart. *)
Lemma generate_chart_grows (set_order shuffle : list string -> list string)
  (self : SeatingChart) (c : Chart) :
  generate_chart set_order shuffle self = inr c ->
  grows (handle_together set_order self) c.
Proof.
  unfold generate_chart.
  destruct (handle_apart self (handle_together set_order self)) as [e | c2] eqn:E2;
    simpl; [discriminate |].
  destruct (validate_group_size self c2) as [e | []]; simpl; [discriminate |].
  destruct (handle_remaining set_order shuffle self c2) as [e | c3] eqn:E3;
    simpl; [discriminate |].
  destruct (validate_number_of_groups self c3) as [e | []]; simpl; [discriminate |].
  intros H. ok_inv H.
  eapply grows_trans; [eapply handle_apart_grows, E2 |].
  eapply handle_remaining_grows, E3.
Qed.

(** ** The together stage *)

Lemma group_eqb_refl (g : Group) : group_eqb g g = true.
Proof.
  unfold group_eqb. destruct (list_eq_dec string_dec g g); [reflexivity | congruence].
Qed.

Lemma group_eqb_eq (g1 g2 : Group) : group_eqb g1 g2 = true -> g1 = g2.
Proof.
  unfold group_eqb. destruct (list_eq_dec string_dec g1 g2); [auto | discriminate].
Qed.

Lemma list_remove_In (x g : Group) (l : Chart) :
  In g l -> g = x \/ In g (list_remove x l).
Proof.
  induction l as [| y l IH]; simpl; [intros [] |].
  destruct (group_eqb y x) eqn:E.
  - intros [<- | Hg]; [left; apply group_eqb_eq, E | right; exact Hg].
  - intros [<- | Hg]; [right; now left |].
    destruct (IH Hg) as [-> | Hin]; [now left | right; now right].
Qed.

Lemma insert_by_len_perm (g : Group) (l : Chart) :
  Permutation (insert_by_len g l) (g :: l).
Proof.
  induction l as [| h t IH]; simpl.
  - apply Permutation_refl.
  - destruct (length h <=? length g)%nat.
    + apply Permutation_refl.
    + apply perm_trans with (h :: g :: t); [apply perm_skip, IH | apply perm_swap].
Qed.

Lemma sorted_by_len_desc_perm (l : Chart) : Permutation (sorted_by_len_desc l) l.
Proof.
  induction l as [| g l IH]; simpl.
  - apply perm_nil.
  - apply perm_trans with (g :: sorted_by_len_desc l);
      [apply insert_by_len_perm | apply perm_skip, IH].
Qed.

Section Together.

Variable set_order : list string -> list string.

Hypothesis set_order_perm :
  forall l, Permutation (set_order l) (nodup string_dec l).

Lemma together_step_grows (groups : Chart) (pair : Pair) :
  grows groups (together_step set_order groups pair).
Proof.
  unfold together_step. destruct groups as [| g0 rest]; [apply grows_nil |].
  destruct (find _ (g0 :: rest)) as [group |] eqn:E; [| apply grows_app_r].
  intros g Hg. destruct (list_remove_In group g _ Hg) as [-> | Hin].
  - exists (set_order (pair_list pair ++ group)). split.
    + apply in_or_app. right. now left.
    + intros x Hx. apply (set_order_In set_order set_order_perm).
      apply in_or_app. now right.
  - exists g. split; [apply in_or_app; now left | apply incl_refl].
Qed.

Lemma together_step_shares (groups : Chart) (pair : Pair) :
  share_group (together_step set_order groups pair) (fst pair) (snd pair).
Proof.
  assert (Hnew : forall c, share_group (c ++ [pair_list pair]) (fst pair) (snd pair)).
  { intros c. exists (pair_list pair). split; [apply in_or_app; right; now left |].
    unfold pair_list. simpl. auto. }
  unfold together_step. destruct groups as [| g0 rest]; [apply (Hnew []) |].
  destruct (find _ (g0 :: rest)) as [group |]; [| apply Hnew].
  exists (set_order (pair_list pair ++ group)). split.
  - apply in_or_app. right. now left.
  - split; apply (set_order_In set_order set_order_perm); unfold pair_list; simpl; auto.
Qed.

Lemma fold_together_grows (pairs : list Pair) (groups : Chart) :
  grows groups (fold_left (together_step set_order) pairs groups).
Proof.
  revert groups. induction pairs as [| p pairs IH]; intros groups; simpl.
  - apply grows_refl.
  - eapply grows_trans; [apply together_step_grows | apply IH].
Qed.

Lemma fold_together_shares (pairs : list Pair) (groups : Chart) (a b : string) :
  In (a, b) pairs ->
  share_group (fold_left (together_step set_order) pairs groups) a b.
Proof.
  revert groups. induction pairs as [| p pairs IH]; intros groups; simpl; [intros [] |].
  intros [-> | Hin]; [| apply IH, Hin].
  eapply share_group_grows; [apply fold_together_grows |].
  apply (together_step_shares groups (a, b)).
Qed.

Lemma handle_together_shares (self : SeatingChart) (pairs : list Pair) (a b : string) :
  together self = Some pairs -> In (a, b) pairs ->
  share_group (handle_together set_order self) a b.
Proof.
  intros Ht Hin. unfold handle_together. rewrite Ht.
  destruct (fold_together_shares pairs [] a b Hin) as (g & Hg & Ha & Hb).
  exists g. split; [| auto].
  eapply Permutation_in; [apply Permutation_sym, sorted_by_len_desc_perm | exact Hg].
Qed.

(** A chain met in order keeps a single group: after the pair (a, b) the
    group holds [b], which the next pair (b, c) overlaps. *)
Lemma fold_together_chain (names : list string) :
  forall (a : string) (g : Group),
    In a g ->
    exists g',
      fold_left (together_step set_order) (chain (a :: names)) [g] = [g']
      /\ forall x, In x g' <-> In x g \/ In x names.
Proof.
  induction names as [| b names IH]; intros a g Ha.
  - exists g. split; [reflexivity | intros x; simpl; tauto].
  - assert (Estep : together_step set_order [g] (a, b)
                    = [set_order (pair_list (a, b) ++ g)]).
    { unfold together_step. simpl find.
      apply mem_In in Ha. rewrite Ha. simpl. rewrite group_eqb_refl. reflexivity. }
    destruct (IH b (set_order (pair_list (a, b) ++ g))) as (g' & E & Hg').
    { apply (set_order_In set_order set_order_perm). simpl. auto. }
    exists g'. split.
    + change (fold_left (together_step set_order) (chain (a :: b :: names)) [g])
        with (fold_left (together_step set_order) (chain (b :: names))
                (together_step set_order [g] (a, b))).
      rewrite Estep. exact E.
    + intros x. rewrite Hg', (set_order_In set_order set_order_perm).
      simpl. intuition (subst; auto).
Qed.

Lemma handle_together_chain (self : SeatingChart) (a b : string) (names : list string) :
  together self = Some (chain (a :: b :: names)) ->
  exists g,
    handle_together set_order self = [g]
    /\ forall x, In x g <-> In x (a :: b :: names).
Proof.
  intros Ht. unfold handle_together. rewrite Ht. cbv beta iota.
  change (fold_left (together_step set_order) (chain (a :: b :: names)) [])
    with (fold_left (together_step set_order) (chain (b :: names)) [[a; b]]).
  destruct (fold_together_chain names b [a; b]) as (g & E & Hg); [simpl; auto |].
  exists g. split.
  - transitivity (sorted_by_len_desc [g]); [f_equal; exact E | reflexivity].
  - intros x. rewrite Hg. simpl. tauto.
Qed.

End Together.

(** C3: when generation succeeds, the two members of every together pair
    share a group of the final chart; and a together list that is a chain
    (a,b), (b,c), (c,d), ... met in that order is merged by the together
    stage into one single group of exactly the chain's individuals, all of
    whom share a group of the final chart. *)
Theorem together_pairs_share_a_group :
  forall (set_order shuffle : list string -> list string),
    (forall l, Permutation (set_order l) (nodup string_dec l)) ->
    forall (self : SeatingChart) (c : Chart),
      generate_chart set_order shuffle self = inr c ->
      (forall pairs a b,
          together self = Some pairs -> In (a, b) pairs ->
          exists g, In g c /\ In a g /\ In b g)
      /\ (forall a b names,
             together self = Some (chain (a :: b :: names)) ->
             (exists g,
                 handle_together set_order self = [g]
                 /\ forall x, In x g <-> In x (a :: b :: names))
             /\ exists g', In g' c /\ forall x, In x (a :: b :: names) -> In x g').
Proof.
  intros set_order shuffle Hset self c Hgen.
  pose proof (generate_chart_grows set_order shuffle self c Hgen) as Hgrows.
  split.
  - intros pairs a b Ht Hin.
    apply (share_group_grows _ c a b Hgrows).
    apply (handle_together_shares set_order Hset self pairs a b Ht Hin).
  - intros a b names Ht.
    destruct (handle_together_chain set_order Hset self a b names Ht) as (g & E & Hg).
    split; [exists g; split; assumption |].
    destruct (Hgrows g) as (g' & Hg' & Hincl); [rewrite E; now left |].
    exists g'. split; [exact Hg' |].
    intros x Hx. apply Hincl, Hg, Hx.
Qed.

(** C3 on [chain_object], whose chart is the single group of A, B, C, D. *)
Lemma together_pairs_share_a_group_witness :
  (forall pairs a b,
      together chain_object = Some pairs -> In (a, b) pairs ->
      exists g, In g [["C"; "D"; "B"; "A"]] /\ In a g /\ In b g)
  /\ (forall a b names,
         together chain_object = Some (chain (a :: b :: names)) ->
         (exists g,
             handle_together insertion_order chain_object = [g]
             /\ forall x, In x g <-> In x (a :: b :: names))
         /\ exists g',
             In g' [["C"; "D"; "B"; "A"]]
             /\ forall x, In x (a :: b :: names) -> In x g').
Proof.
  apply (together_pairs_share_a_group insertion_order no_shuffle
           insertion_order_perm chain_object [["C"; "D"; "B"; "A"]]).
  vm_compute. reflexivity.
Defined.

(** ** Two inputs on which the stages disagree with the chart's invariants *)

Lemma filter_none {A : Type} (f : A -> bool) (l : list A) :
  (forall x, In x l -> f x = false) -> filter f l = [].
Proof.
  induction l as [| x l IH]; intros Hf; simpl; [reflexivity |].
  rewrite (Hf x (or_introl eq_refl)). apply IH. intros y Hy. apply Hf. now right.
Qed.

Lemma generate_chart_stages (set_order shuffle : list string -> list string)
  (self : SeatingChart) (chart_2 chart_3 : Chart) :
  handle_apart self (handle_together set_order self) = inr chart_2 ->
  validate_group_size self chart_2 = inr tt ->
  handle_remaining set_order shuffle self chart_2 = inr chart_3 ->
  validate_number_of_groups self chart_3 = inr tt ->
  generate_chart set_order shuffle self = inr chart_3.
Proof.
  intros E2 Es E3 En. unfold generate_chart.
  rewrite E2. simpl. rewrite Es. simpl. rewrite E3. simpl. rewrite En. reflexivity.
Qed.

Lemma get_nested_index_single (item : string) (g : Group) :
  In item g -> get_nested_index item [g] = inr (Some 0%nat).
Proof.
  intros Hin. apply mem_In in Hin. unfold get_nested_index. simpl.
  rewrite Hin. simpl. rewrite group_eqb_refl. reflexivity.
Qed.

Section Placed.

Variable set_order : list string -> list string.
Variable shuffle : list string -> list string.

Hypothesis set_order_perm :
  forall l, Permutation (set_order l) (nodup string_dec l).
Hypothesis shuffle_perm : forall l, Permutation (shuffle l) l.

(** Once every individual of the roster is placed, nothing remains to be
    balanced. *)
Lemma handle_remaining_all_placed (self : SeatingChart) (names : list string)
  (c : Chart) :
  roster self = Some names ->
  (forall x, In x names -> In x (concat c)) ->
  handle_remaining set_order shuffle self c = inr c.
Proof.
  intros Hr Hplaced. unfold handle_remaining. rewrite Hr.
  rewrite filter_none.
  - rewrite (set_order_nil set_order set_order_perm).
    rewrite (shuffle_nil shuffle shuffle_perm). reflexivity.
  - intros x Hx. apply negb_false_iff, mem_In, Hplaced, Hx.
Qed.

End Placed.

(** C2 fails on the together pairs (A,B), (C,D), (B,C): the third pair is
    merged into the group of A and B only, so that, whatever the iteration
    order of sets and the shuffle, generation succeeds with a chart of two
    groups that both hold C. *)
Theorem bridging_pair_places_an_individual_twice :
  forall (set_order shuffle : list string -> list string),
    (forall l, Permutation (set_order l) (nodup string_dec l)) ->
    (forall l, Permutation (shuffle l) l) ->
    exists self g1 g2,
      init set_order (Some ["A"; "B"; "C"; "D"])
        (Some [("A", "B"); ("C", "D"); ("B", "C")]) None PyNone PyNone = inr self
      /\ fst (chart set_order shuffle self) = inr [g1; g2]
      /\ In "C" g1 /\ In "C" g2.
Proof.
  intros set_order shuffle Hset Hshuffle.
  set (pairs := [("A", "B"); ("C", "D"); ("B", "C")]).
  set (pre := mkSeatingChart (Some pairs) None None None None None).
  destruct (validate_roster_named set_order Hset pre (Some ["A"; "B"; "C"; "D"]))
    as (sorted & Er & _ & Hin); [discriminate |].
  set (self := mkSeatingChart (Some pairs) None None None (Some sorted) None).
  set (U := set_order ["B"; "C"; "A"; "B"]).
  assert (HU : forall x, In x U <-> In x ["B"; "C"; "A"; "B"]).
  { intros x. apply set_order_In, Hset. }
  assert (HlenU : length U = 3%nat).
  { unfold U. rewrite (Permutation_length (Hset _)). reflexivity. }
  exists self, U, ["C"; "D"]. split; [| split; [| split]].
  - change (inr (mkSeatingChart (Some pairs) None None None
                   (validate_roster set_order pre (Some ["A"; "B"; "C"; "D"])) None)
            = inr self :> result SeatingChart).
    rewrite Er. reflexivity.
  - assert (Ht : handle_together set_order self = [U; ["C"; "D"]]).
    { change (handle_together set_order self)
        with (insert_by_len ["C"; "D"] (insert_by_len U [])).
      unfold insert_by_len. rewrite HlenU. reflexivity. }
    unfold chart. simpl chart_cache. cbv iota.
    rewrite (generate_chart_stages set_order shuffle self [U; ["C"; "D"]] [U; ["C"; "D"]]);
      try reflexivity.
    + rewrite Ht. reflexivity.
    + apply (handle_remaining_all_placed set_order shuffle Hset Hshuffle self sorted);
        [reflexivity |].
      intros x Hx. apply Hin in Hx. simpl concat. apply in_or_app.
      rewrite HU. simpl in Hx |- *. intuition.
  - apply HU. simpl. auto.
  - simpl. auto.
Qed.

(** C2 at first-insertion order and the identity shuffle. *)
Lemma bridging_pair_places_an_individual_twice_witness :
  exists self g1 g2,
    init insertion_order (Some ["A"; "B"; "C"; "D"])
      (Some [("A", "B"); ("C", "D"); ("B", "C")]) None PyNone PyNone = inr self
    /\ fst (chart insertion_order no_shuffle self) = inr [g1; g2]
    /\ In "C" g1 /\ In "C" g2.
Proof.
  apply (bridging_pair_places_an_individual_twice insertion_order no_shuffle
           insertion_order_perm no_shuffle_perm).
Defined.

(** C1 fails on together pairs (A,B), (B,C) with the apart pair (A,C): no
    together pair equals the apart pair, so construction accepts the lists;
    the together stage merges A, B and C into one group; the apart stage
    finds A and C at the same index, where none of its four cases applies;
    and, whatever the iteration order of sets and the shuffle, generation
    succeeds with a single group that holds both A and C. *)
Theorem apart_pair_merged_by_together_stays_merged :
  forall (set_order shuffle : list string -> list string),
    (forall l, Permutation (set_order l) (nodup string_dec l)) ->
    (forall l, Permutation (shuffle l) l) ->
    exists self g,
      init set_order (Some ["A"; "B"; "C"])
        (Some [("A", "B"); ("B", "C")]) (Some [("A", "C")]) PyNone PyNone = inr self
      /\ fst (chart set_order shuffle self) = inr [g]
      /\ In "A" g /\ In "C" g.
Proof.
  intros set_order shuffle Hset Hshuffle.
  set (pairs := [("A", "B"); ("B", "C")]).
  set (pre := mkSeatingChart (Some pairs) (Some [("A", "C")]) None None None None).
  destruct (validate_roster_named set_order Hset pre (Some ["A"; "B"; "C"]))
    as (sorted & Er & _ & Hin); [discriminate |].
  set (self := mkSeatingChart (Some pairs) (Some [("A", "C")]) None None
                 (Some sorted) None).
  set (U := set_order ["B"; "C"; "A"; "B"]).
  assert (HU : forall x, In x U <-> In x ["B"; "C"; "A"; "B"]).
  { intros x. apply set_order_In, Hset. }
  assert (HA : In "A" U) by (apply HU; simpl; auto).
  assert (HC : In "C" U) by (apply HU; simpl; auto).
  exists self, U. split; [| split; [| split]]; [| | exact HA | exact HC].
  - change (inr (mkSeatingChart (Some pairs) (Some [("A", "C")]) None None
                   (validate_roster set_order pre (Some ["A"; "B"; "C"])) None)
            = inr self :> result SeatingChart).
    rewrite Er. reflexivity.
  - assert (Ht : handle_together set_order self = [U]) by reflexivity.
    unfold chart. simpl chart_cache. cbv iota.
    rewrite (generate_chart_stages set_order shuffle self [U] [U]); try reflexivity.
    + rewrite Ht. unfold handle_apart. simpl apart. cbv iota.
      unfold for_each, apart_step. cbv beta iota zeta.
      rewrite (get_nested_index_single "A" U HA).
      rewrite (get_nested_index_single "C" U HC). reflexivity.
    + apply (handle_remaining_all_placed set_order shuffle Hset Hshuffle self sorted);
        [reflexivity |].
      intros x Hx. apply Hin in Hx. simpl concat. rewrite app_nil_r.
      rewrite HU. simpl in Hx |- *. intuition.
Qed.

(** C1 at first-insertion order and the identity shuffle. *)
Lemma apart_pair_merged_by_together_stays_merged_witness :
  exists self g,
    init insertion_order (Some ["A"; "B"; "C"])
      (Some [("A", "B"); ("B", "C")]) (Some [("A", "C")]) PyNone PyNone = inr self
    /\ fst (chart insertion_order no_shuffle self) = inr [g]
    /\ In "A" g /\ In "C" g.
Proof.
  apply (apart_pair_merged_by_together_stays_merged insertion_order no_shuffle
           insertion_order_perm no_shuffle_perm).
Defined.

(** ** The apart stage keeps apart what it is given apart *)

Lemma placed_iff (c : Chart) (x : string) :
  placed c x <-> exists g, In g c /\ In x g.
Proof. unfold placed. apply in_concat. Qed.

Lemma placed_grows (c c' : Chart) (x : string) :
  grows c c' -> placed c x -> placed c' x.
Proof.
  intros Hgrows Hx. apply placed_iff in Hx. destruct Hx as (g & Hg & Hx).
  destruct (Hgrows g Hg) as (g' & Hg' & Hincl).
  apply placed_iff. exists g'. split; [exact Hg' | apply Hincl, Hx].
Qed.

Lemma get_nested_index_placed (item : string) (c : Chart) (k : nat) :
  get_nested_index item c = inr (Some k) -> placed c item.
Proof.
  unfold get_nested_index.
  destruct (filter (fun i => mem item i) c) as [| g l] eqn:E; simpl; [discriminate |].
  intros _. apply placed_iff. exists g.
  assert (Hg : In g (filter (fun i => mem item i) c)) by (rewrite E; now left).
  apply filter_In in Hg. destruct Hg as [Hg Hmem].
  split; [exact Hg | apply mem_In, Hmem].
Qed.

Lemma conflict_free_singleton (pairs : list Pair) (item : string) :
  proper_pairs pairs -> conflict_free pairs [item].
Proof.
  intros Hproper a b Hin [[Ha | []] [Hb | []]].
  apply (Hproper a b Hin). congruence.
Qed.

Lemma conflict_free_unconstrained (pairs : list Pair) (item : string) (g : Group) :
  unconstrained pairs item -> conflict_free pairs g -> conflict_free pairs (g ++ [item]).
Proof.
  intros Hitem Hg a b Hin [Ha Hb].
  destruct (Hitem a b Hin) as [Hna Hnb].
  apply in_app_or in Ha, Hb. simpl in Ha, Hb.
  destruct Ha as [Ha | [Ha | []]]; [| congruence].
  destruct Hb as [Hb | [Hb | []]]; [| congruence].
  apply (Hg a b Hin). auto.
Qed.

(** The test of [__append_item] is what makes the extended group safe. *)
Lemma conflict_free_can_add (pairs : list Pair) (item : string) (g : Group) :
  proper_pairs pairs ->
  can_add_item_to_group pairs item g = true ->
  conflict_free pairs g -> conflict_free pairs (g ++ [item]).
Proof.
  intros Hproper Hcan Hg a b Hin [Ha Hb].
  unfold can_add_item_to_group in Hcan. rewrite forallb_forall in Hcan.
  specialize (Hcan (a, b) Hin). unfold conflict_item, pair_list in Hcan.
  simpl in Hcan.
  pose proof (Hproper a b Hin) as Hab.
  apply in_app_or in Ha, Hb. simpl in Ha, Hb.
  destruct Ha as [Ha | [Ha | []]], Hb as [Hb | [Hb | []]].
  - apply (Hg a b Hin). auto.
  - (* [b] is the item, [a] sits in the group *)
    subst b. rewrite String.eqb_refl in Hcan. simpl in Hcan.
    rewrite orb_true_r in Hcan.
    destruct (String.eqb_spec a item) as [E | _]; [now elim Hab |].
    apply negb_true_iff, mem_false in Hcan. contradiction.
  - (* [a] is the item, [b] sits in the group *)
    subst a. rewrite String.eqb_refl in Hcan. simpl in Hcan.
    apply negb_true_iff, mem_false in Hcan. contradiction.
  - elim Hab. congruence.
Qed.

Lemma append_scan_separated (pairs : list Pair) (limit : option Z) (item : string)
  (c c' : Chart) :
  proper_pairs pairs -> separated pairs c ->
  append_scan pairs limit item c = Some c' -> separated pairs c'.
Proof.
  intros Hproper. revert c'. induction c as [| g rest IH]; intros c' Hsep; simpl;
    [discriminate |].
  apply Forall_cons_iff in Hsep. destruct Hsep as [Hg Hrest].
  assert (Hskip : option_map (cons g) (append_scan pairs limit item rest) = Some c' ->
                  separated pairs c').
  { destruct (append_scan pairs limit item rest) as [rest' |]; [| discriminate].
    intros H. injection H as <-. constructor; [exact Hg | now apply IH]. }
  assert (Hadd : can_add_item_to_group pairs item g = true ->
                 Some ((g ++ [item]) :: rest) = Some c' -> separated pairs c').
  { intros Hcan H. injection H as <-.
    constructor; [now apply conflict_free_can_add | exact Hrest]. }
  destruct (mem item g); [exact Hskip |].
  destruct (can_add_item_to_group pairs item g); [| exact Hskip].
  destruct limit as [m |]; [destruct (m <=? len g); [exact Hskip |] |];
    now apply Hadd.
Qed.

Lemma separated_new_group (pairs : list Pair) (item : string) (c : Chart) :
  proper_pairs pairs -> separated pairs c -> separated pairs (c ++ [[item]]).
Proof.
  intros Hproper Hsep. apply Forall_app. split; [exact Hsep |].
  constructor; [now apply conflict_free_singleton | constructor].
Qed.

Lemma append_scan_places (pairs : list Pair) (limit : option Z) (item : string)
  (c c' : Chart) :
  append_scan pairs limit item c = Some c' -> placed c' item.
Proof.
  revert c'. induction c as [| g rest IH]; intros c'; simpl; [discriminate |].
  assert (Hskip : option_map (cons g) (append_scan pairs limit item rest) = Some c' ->
                  placed c' item).
  { destruct (append_scan pairs limit item rest) as [rest' |]; [| discriminate].
    intros H. injection H as <-. unfold placed. simpl. apply in_or_app. right.
    now apply IH. }
  assert (Hadd : Some ((g ++ [item]) :: rest) = Some c' -> placed c' item).
  { intros H. injection H as <-. unfold placed. simpl.
    apply in_or_app. left. apply in_or_app. right. now left. }
  destruct (mem item g); [exact Hskip |].
  destruct (can_add_item_to_group pairs item g); [| exact Hskip].
  destruct limit as [m |]; [destruct (m <=? len g); [exact Hskip |] |]; exact Hadd.
Qed.

Lemma placed_new_group (item : string) (c : Chart) : placed (c ++ [[item]]) item.
Proof.
  unfold placed. rewrite concat_app. apply in_or_app. right. simpl. now left.
Qed.

Section Apart.

Variable self : SeatingChart.
Variable pairs : list Pair.

Hypothesis apart_pairs : apart self = Some pairs.
Hypothesis pairs_proper : proper_pairs pairs.

Lemma append_item_separated (item : string) (c c' : Chart) :
  separated pairs c -> append_item self item c = inr c' ->
  separated pairs c' /\ placed c' item.
Proof.
  intros Hsep. unfold append_item. rewrite apart_pairs.
  destruct (append_scan pairs (max_size self) item c) as [c1 |] eqn:E;
    intros H; ok_inv H.
  - split; [eapply append_scan_separated; eassumption | eapply append_scan_places, E].
  - split; [now apply separated_new_group | apply placed_new_group].
Qed.

Lemma apart_step_separated (a b : string) (c c' : Chart) :
  In (a, b) pairs -> separated pairs c ->
  apart_step self (a, b) c = inr c' ->
  separated pairs c' /\ placed c' a /\ placed c' b.
Proof.
  intros Hin Hsep. unfold apart_step.
  destruct (get_nested_index a c) as [e | i1] eqn:E1; simpl; [discriminate |].
  destruct (get_nested_index b c) as [e | i2] eqn:E2; simpl; [discriminate |].
  destruct c as [| g rest].
  - intros H. ok_inv H. split; [| split].
    + repeat constructor; now apply conflict_free_singleton.
    + unfold placed. simpl. auto.
    + unfold placed. simpl. auto.
  - destruct i1 as [n1 |], i2 as [n2 |].
    + intros H. ok_inv H. split; [exact Hsep |].
      split; eapply get_nested_index_placed; eassumption.
    + intros H. destruct (append_item_separated b _ _ Hsep H) as [Hsep' Hb].
      split; [exact Hsep' | split; [| exact Hb]].
      eapply placed_grows; [eapply append_item_grows, H |].
      eapply get_nested_index_placed, E1.
    + intros H. destruct (append_item_separated a _ _ Hsep H) as [Hsep' Ha].
      split; [exact Hsep' | split; [exact Ha |]].
      eapply placed_grows; [eapply append_item_grows, H |].
      eapply get_nested_index_placed, E2.
    + destruct (append_item self a (g :: rest)) as [e | c1] eqn:Ea; simpl;
        [discriminate |].
      intros H.
      destruct (append_item_separated a _ _ Hsep Ea) as [Hsep1 Ha].
      destruct (append_item_separated b _ _ Hsep1 H) as [Hsep' Hb].
      split; [exact Hsep' | split; [| exact Hb]].
      eapply placed_grows; [eapply append_item_grows, H | exact Ha].
Qed.

Lemma for_each_apart_separated (todo : list Pair) :
  incl todo pairs ->
  forall c c',
    separated pairs c ->
    for_each (apart_step self) todo c = inr c' ->
    separated pairs c'
    /\ forall a b, In (a, b) todo -> placed c' a /\ placed c' b.
Proof.
  induction todo as [| [a b] todo IH]; intros Hincl c c' Hsep; cbn [for_each].
  - intros H. ok_inv H. split; [exact Hsep | intros a b []].
  - destruct (apart_step self (a, b) c) as [e | c1] eqn:E; cbn [bind];
      [discriminate |].
    intros H.
    destruct (apart_step_separated a b c c1) as (Hsep1 & Ha & Hb);
      [apply Hincl; now left | exact Hsep | exact E |].
    destruct (IH (fun p Hp => Hincl p (or_intror Hp)) c1 c' Hsep1 H) as [Hsep' Hrest].
    split; [exact Hsep' |].
    intros x y [Hxy | Hxy]; [| now apply Hrest].
    injection Hxy as <- <-.
    pose proof (for_each_grows (apart_step self)
                  (fun p => apart_step_grows self p) todo c1 c' H) as Hgrows.
    split; eapply placed_grows; eassumption.
Qed.

Lemma handle_apart_separated (c c' : Chart) :
  separated pairs c -> handle_apart self c = inr c' ->
  separated pairs c' /\ forall a b, In (a, b) pairs -> placed c' a /\ placed c' b.
Proof.
  intros Hsep. unfold handle_apart. rewrite apart_pairs.
  apply for_each_apart_separated; [apply incl_refl | exact Hsep].
Qed.

End Apart.

(** ** Balancing keeps apart pairs apart *)

Lemma conflict_free_singleton_unconstrained (pairs : list Pair) (item : string) :
  unconstrained pairs item -> conflict_free pairs [item].
Proof.
  intros Hitem a b Hin [[Ha | []] _].
  destruct (Hitem a b Hin) as [Hna _]. congruence.
Qed.

Lemma extend_at_separated (pairs : list Pair) (index : nat) (item : string)
  (c : Chart) :
  unconstrained pairs item -> separated pairs c ->
  separated pairs (extend_at index item c).
Proof.
  intros Hitem. revert index. induction c as [| g rest IH]; intros index Hsep.
  - destruct index; exact Hsep.
  - apply Forall_cons_iff in Hsep. destruct Hsep as [Hg Hrest].
    destruct index as [| i]; simpl; constructor.
    + now apply conflict_free_unconstrained.
    + exact Hrest.
    + exact Hg.
    + apply IH, Hrest.
Qed.

Lemma balance_separated (pairs : list Pair) (self : SeatingChart) (item : string)
  (c c' : Chart) :
  unconstrained pairs item -> separated pairs c ->
  balance_nested_list self item c = inr c' -> separated pairs c'.
Proof.
  intros Hitem Hsep.
  assert (Hnew : separated pairs (c ++ [[item]])).
  { apply Forall_app. split; [exact Hsep |].
    constructor; [now apply conflict_free_singleton_unconstrained | constructor]. }
  destruct c as [| g rest].
  - intros H. ok_inv H. exact Hnew.
  - unfold balance_nested_list.
    repeat match goal with
           | |- context [if ?b then _ else _] => destruct b
           end;
      intros H; try discriminate; ok_inv H;
      first [exact Hnew | now apply extend_at_separated].
Qed.

Lemma for_each_balance_separated (pairs : list Pair) (self : SeatingChart)
  (items : list string) :
  (forall item, In item items -> unconstrained pairs item) ->
  forall c c',
    separated pairs c ->
    for_each (balance_nested_list self) items c = inr c' -> separated pairs c'.
Proof.
  induction items as [| item items IH]; intros Hitems c c' Hsep; cbn [for_each].
  - intros H. ok_inv H. exact Hsep.
  - destruct (balance_nested_list self item c) as [e | c1] eqn:E; cbn [bind];
      [discriminate |].
    apply IH.
    + intros x Hx. apply Hitems. now right.
    + eapply balance_separated; [apply Hitems; now left | exact Hsep | exact E].
Qed.

Section Remaining.

Variable set_order : list string -> list string.
Variable shuffle : list string -> list string.

Hypothesis set_order_perm :
  forall l, Permutation (set_order l) (nodup string_dec l).
Hypothesis shuffle_perm : forall l, Permutation (shuffle l) l.

(** What the balancer is given are individuals of the roster that are not
    placed yet. *)
Lemma remaining_In (names : list string) (c : Chart) (x : string) :
  In x (shuffle (set_order (filter (fun name => negb (mem name (concat c))) names))) ->
  In x names /\ ~ placed c x.
Proof.
  intros Hx.
  apply (Permutation_in _ (shuffle_perm _)) in Hx.
  apply (proj1 (set_order_In set_order set_order_perm _ _)) in Hx.
  apply filter_In in Hx. destruct Hx as [Hnames Hmem].
  split; [exact Hnames |]. apply mem_false, negb_true_iff, Hmem.
Qed.

Lemma handle_remaining_separated (pairs : list Pair) (self : SeatingChart)
  (c c' : Chart) :
  (forall a b, In (a, b) pairs -> placed c a /\ placed c b) ->
  separated pairs c ->
  handle_remaining set_order shuffle self c = inr c' -> separated pairs c'.
Proof.
  intros Hplaced Hsep. unfold handle_remaining.
  destruct (roster self) as [names |]; [| discriminate].
  apply for_each_balance_separated; [| exact Hsep].
  intros item Hitem a b Hin.
  apply remaining_In in Hitem. destruct Hitem as [_ Hfree].
  destruct (Hplaced a b Hin) as [Ha Hb].
  split; intros ->; contradiction.
Qed.

End Remaining.

(** X2: when generation succeeds, every apart pair of two distinct
    individuals has both members placed and no group holds both, provided
    the together stage has not already put the members of an apart pair in
    one group. *)
Theorem apart_pairs_separated_unless_merged_by_together :
  forall (set_order shuffle : list string -> list string),
    (forall l, Permutation (set_order l) (nodup string_dec l)) ->
    (forall l, Permutation (shuffle l) l) ->
    forall (self : SeatingChart) (pairs : list Pair) (c : Chart),
      apart self = Some pairs ->
      proper_pairs pairs ->
      separated pairs (handle_together set_order self) ->
      generate_chart set_order shuffle self = inr c ->
      forall a b,
        In (a, b) pairs ->
        (exists g, In g c /\ In a g)
        /\ (exists g, In g c /\ In b g)
        /\ forall g, In g c -> ~ (In a g /\ In b g).
Proof.
  intros set_order shuffle Hset Hshuffle self pairs c Hapart Hproper Hsep Hgen a b Hin.
  unfold generate_chart in Hgen.
  destruct (handle_apart self (handle_together set_order self)) as [e | c2] eqn:E2;
    simpl in Hgen; [discriminate |].
  destruct (validate_group_size self c2) as [e | []]; simpl in Hgen; [discriminate |].
  destruct (handle_remaining set_order shuffle self c2) as [e | c3] eqn:E3;
    simpl in Hgen; [discriminate |].
  destruct (validate_number_of_groups self c3) as [e | []]; simpl in Hgen;
    [discriminate |].
  ok_inv Hgen.
  destruct (handle_apart_separated self pairs Hapart Hproper _ _ Hsep E2)
    as [Hsep2 Hplaced2].
  pose proof (handle_remaining_separated set_order shuffle Hset Hshuffle
                pairs self c2 c3 Hplaced2 Hsep2 E3) as Hsep3.
  pose proof (handle_remaining_grows set_order shuffle self c2 c3 E3) as Hgrows.
  destruct (Hplaced2 a b Hin) as [Ha Hb].
  split; [| split].
  - apply placed_iff. eapply placed_grows; eassumption.
  - apply placed_iff. eapply placed_grows; eassumption.
  - intros g Hg. unfold separated in Hsep3. rewrite Forall_forall in Hsep3.
    apply (Hsep3 g Hg a b Hin).
Qed.

(** The fixtures of the test suite: Amy and Dan end in different groups. *)
Lemma apart_pairs_separated_unless_merged_by_together_witness :
  (exists g, In g fixture_chart /\ In "Amy" g)
  /\ (exists g, In g fixture_chart /\ In "Dan" g)
  /\ forall g, In g fixture_chart -> ~ (In "Amy" g /\ In "Dan" g).
Proof.
  apply (apart_pairs_separated_unless_merged_by_together insertion_order no_shuffle
           insertion_order_perm no_shuffle_perm fixture_object
           [("Amy", "Dan"); ("Dan", "Felix")] fixture_chart).
  - reflexivity.
  - intros a b [H | [H | []]]; injection H as <- <-; discriminate.
  - repeat constructor;
      intros a b [H | [H | []]] [Ha Hb]; injection H as <- <-;
      simpl in Ha, Hb; intuition discriminate.
  - vm_compute. reflexivity.
  - simpl. auto.
Defined.

(** ** The limits on the final chart *)

Lemma max_of_spec (l : list Z) :
  forall x, x <= max_of x l /\ forall y, In y l -> y <= max_of x l.
Proof.
  unfold max_of. induction l as [| z l IH]; intros x; simpl.
  - split; [lia | intros y []].
  - destruct (IH (Z.max x z)) as [Hhead Htail]. split; [lia |].
    intros y [<- | Hy]; [lia | now apply Htail].
Qed.

Lemma min_of_spec (l : list Z) :
  forall x, min_of x l <= x /\ forall y, In y l -> min_of x l <= y.
Proof.
  unfold min_of. induction l as [| z l IH]; intros x; simpl.
  - split; [lia | intros y []].
  - destruct (IH (Z.min x z)) as [Hhead Htail]. split; [lia |].
    intros y [<- | Hy]; [lia | now apply Htail].
Qed.

Lemma min_of_In (l : list Z) : forall x, In (min_of x l) (x :: l).
Proof.
  unfold min_of. induction l as [| z l IH]; intros x; simpl.
  - now left.
  - destruct (IH (Z.min x z)) as [H | H].
    + destruct (Z.min_spec x z) as [[_ E] | [_ E]].
      * left. congruence.
      * right. left. congruence.
    + right. right. exact H.
Qed.

Lemma index_of_nth_error (x : Z) (l : list Z) :
  In x l -> nth_error l (index_of Z.eqb x l) = Some x.
Proof.
  induction l as [| y l IH]; simpl; [intros [] |].
  destruct (Z.eqb_spec y x) as [-> | Hneq]; [reflexivity |].
  intros [E | Hin]; [congruence | exact (IH Hin)].
Qed.

(** The index the balancer extends at is the index of a smallest group. *)
Lemma index_min_size_spec (g : Group) (rest : Chart) :
  exists smallest,
    nth_error (g :: rest)
      (index_of Z.eqb (min_of (len g) (map len rest)) (map len (g :: rest)))
    = Some smallest
    /\ len smallest = min_of (len g) (map len rest).
Proof.
  pose proof (index_of_nth_error _ _ (min_of_In (map len rest) (len g))) as H.
  change (len g :: map len rest) with (map len (g :: rest)) in H.
  rewrite nth_error_map in H.
  destruct (nth_error (g :: rest) _) as [smallest |]; [| discriminate].
  exists smallest. split; [reflexivity |]. simpl in H. congruence.
Qed.

Lemma extend_at_Forall (P : Group -> Prop) (index : nat) (item : string)
  (c : Chart) :
  Forall P c ->
  (forall g, nth_error c index = Some g -> P (g ++ [item])) ->
  Forall P (extend_at index item c).
Proof.
  revert index. induction c as [| g rest IH]; intros index Hall Hnew.
  - destruct index; exact Hall.
  - apply Forall_cons_iff in Hall. destruct Hall as [Hg Hrest].
    destruct index as [| i]; simpl; constructor.
    + apply Hnew. reflexivity.
    + exact Hrest.
    + exact Hg.
    + apply IH; [exact Hrest | exact Hnew].
Qed.

Lemma nodup_const (v : Z) (l : list Z) :
  Forall (fun z => z = v) l -> nodup Z.eq_dec (v :: l) = [v].
Proof.
  induction 1 as [| z l Hz _ IH]; [reflexivity |].
  subst z. simpl in *. destruct (Z.eq_dec v v) as [_ | Hneq]; [| now elim Hneq].
  exact IH.
Qed.

(** When the smallest and the largest group have one size, the sizes form
    a set of one element. *)
Lemma all_same_len_when_min_is_max (x : Z) (l : list Z) :
  min_of x l = max_of x l -> length (nodup Z.eq_dec (x :: l)) = 1%nat.
Proof.
  intros E.
  destruct (min_of_spec l x) as [Hmin_head Hmin], (max_of_spec l x) as [Hmax_head Hmax].
  rewrite nodup_const; [reflexivity |].
  apply Forall_forall. intros y Hy.
  specialize (Hmin y Hy). specialize (Hmax y Hy). lia.
Qed.

Lemma validate_group_size_ok (self : SeatingChart) (m : Z) (c : Chart) :
  max_size self = Some m ->
  validate_group_size self c = inr tt ->
  Forall (fun g => len g <= m) c.
Proof.
  intros Hm. destruct c as [| g rest]; [constructor |].
  unfold validate_group_size. rewrite Hm.
  destruct (Z.ltb_spec m (max_of (len g) (map len rest))) as [| Hle];
    [discriminate |].
  intros _. destruct (max_of_spec (map len rest) (len g)) as [Hhead Htail].
  constructor; [lia |].
  apply Forall_forall. intros g' Hg'.
  specialize (Htail (len g') (in_map len _ _ Hg')). lia.
Qed.

Lemma balance_bounded (self : SeatingChart) (m : Z) (item : string) (c c' : Chart) :
  max_size self = Some m -> 1 <= m ->
  Forall (fun g => len g <= m) c ->
  balance_nested_list self item c = inr c' ->
  Forall (fun g => len g <= m) c'.
Proof.
  intros Hm Hpos Hall.
  assert (Hnew : Forall (fun g => len g <= m) (c ++ [[item]])).
  { apply Forall_app. split; [exact Hall |]. repeat constructor. exact Hpos. }
  destruct c as [| g rest]; [intros H; ok_inv H; exact Hnew |].
  unfold balance_nested_list. rewrite Hm. cbv beta iota zeta.
  set (smallest := min_of (len g) (map len rest)).
  set (largest := max_of (len g) (map len rest)).
  destruct (Z.ltb_spec m largest) as [| Hlargest]; [discriminate |].
  assert (Hfill :
            (if ((length (nodup Z.eq_dec (map len (g :: rest))) =? 1)%nat
                 && (m <=? largest))%bool
             then Ok ((g :: rest) ++ [[item]])
             else Ok (extend_at (index_of Z.eqb smallest (map len (g :: rest)))
                        item (g :: rest)))
            = inr c' ->
            Forall (fun g0 => len g0 <= m) c').
  { destruct (_ && (m <=? largest))%bool eqn:E; intros H; ok_inv H; [exact Hnew |].
    apply extend_at_Forall; [exact Hall |].
    intros g' Hg'.
    destruct (index_min_size_spec g rest) as (g'' & Hg'' & Hlen).
    fold smallest in Hg'', Hlen. rewrite Hg'' in Hg'. injection Hg' as <-.
    rewrite len_app, Hlen. change (len [item]) with 1.
    destruct (min_of_spec (map len rest) (len g)) as [Hs _].
    destruct (max_of_spec (map len rest) (len g)) as [Hl _].
    fold smallest in Hs. fold largest in Hl.
    apply andb_false_iff in E. destruct E as [E | E].
    - apply Nat.eqb_neq in E.
      assert (smallest <> largest); [| lia].
      intros Heq. apply E. apply all_same_len_when_min_is_max. exact Heq.
    - apply Z.leb_gt in E. lia. }
  destruct (num_groups self) as [n |]; [| exact Hfill].
  rewrite andb_false_r.
  destruct (len (g :: rest) <? n); [| exact Hfill].
  intros H. ok_inv H. exact Hnew.
Qed.

Lemma for_each_balance_bounded (self : SeatingChart) (m : Z) (items : list string) :
  max_size self = Some m -> 1 <= m ->
  forall c c',
    Forall (fun g => len g <= m) c ->
    for_each (balance_nested_list self) items c = inr c' ->
    Forall (fun g => len g <= m) c'.
Proof.
  intros Hm Hpos. induction items as [| item items IH]; intros c c' Hall;
    cbn [for_each].
  - intros H. ok_inv H. exact Hall.
  - destruct (balance_nested_list self item c) as [e | c1] eqn:E; cbn [bind];
      [discriminate |].
    apply IH. eapply balance_bounded; eassumption.
Qed.

(** X4: a chart that generation returns respects both limits: it has at
    most [num_groups] groups, and, for a [max_size] that passed validation
    (a positive integer), no group has more than [max_size] members. *)
Theorem generated_chart_respects_limits :
  forall (set_order shuffle : list string -> list string)
         (self : SeatingChart) (c : Chart),
    generate_chart set_order shuffle self = inr c ->
    (forall n, num_groups self = Some n -> len c <= n)
    /\ (forall m, max_size self = Some m -> 1 <= m ->
                  Forall (fun g => len g <= m) c).
Proof.
  intros set_order shuffle self c Hgen.
  unfold generate_chart in Hgen.
  destruct (handle_apart self (handle_together set_order self)) as [e | c2];
    cbn [bind] in Hgen; [discriminate |].
  destruct (validate_group_size self c2) as [e | []] eqn:Esize;
    cbn [bind] in Hgen; [discriminate |].
  destruct (handle_remaining set_order shuffle self c2) as [e | c3] eqn:E3;
    cbn [bind] in Hgen; [discriminate |].
  destruct (validate_number_of_groups self c3) as [e | []] eqn:Ecount;
    cbn [bind] in Hgen; [discriminate |].
  ok_inv Hgen. split.
  - intros n Hn. unfold validate_number_of_groups in Ecount. rewrite Hn in Ecount.
    destruct (Z.ltb_spec n (len c3)); [discriminate | assumption].
  - intros m Hm Hpos. unfold handle_remaining in E3.
    destruct (roster self) as [names |]; [| discriminate].
    eapply for_each_balance_bounded; [exact Hm | exact Hpos | | exact E3].
    eapply validate_group_size_ok; eassumption.
Qed.

(** The limits on the chart of [update(max_size=2)] in the test suite's
    scenario: eight individuals, no pairs. *)
Lemma generated_chart_respects_limits_witness :
  (forall n, None = Some n -> len [["Amy"; "Bob"]; ["Cara"; "Dan"]] <= n)
  /\ (forall m, Some 2 = Some m -> 1 <= m ->
                Forall (fun g => len g <= m) [["Amy"; "Bob"]; ["Cara"; "Dan"]]).
Proof.
  apply (generated_chart_respects_limits insertion_order no_shuffle
           (mkSeatingChart None None (Some 2) None
              (Some ["Amy"; "Bob"; "Cara"; "Dan"]) None)
           [["Amy"; "Bob"]; ["Cara"; "Dan"]]).
  vm_compute. reflexivity.
Defined.

(** ** Every individual once

    Each placement adds exactly the placed individual to the chart's
    members: stated on [concat chart], the members in chart order. *)

Lemma concat_new_group (item : string) (c : Chart) :
  Permutation (concat (c ++ [[item]])) (item :: concat c).
Proof.
  rewrite concat_app. simpl. apply Permutation_sym, Permutation_cons_append.
Qed.

Lemma concat_extend_head (g : Group) (item : string) (rest : Chart) :
  Permutation (concat ((g ++ [item]) :: rest)) (item :: concat (g :: rest)).
Proof.
  simpl. rewrite <- app_assoc. simpl. apply Permutation_sym, Permutation_middle.
Qed.

Lemma concat_skip_head (g : Group) (item : string) (rest rest' : Chart) :
  Permutation (concat rest') (item :: concat rest) ->
  Permutation (concat (g :: rest')) (item :: concat (g :: rest)).
Proof.
  intros H. simpl.
  apply perm_trans with (g ++ item :: concat rest).
  - apply Permutation_app_head, H.
  - apply Permutation_sym, Permutation_middle.
Qed.

Lemma extend_at_perm (index : nat) (item : string) (c : Chart) (g : Group) :
  nth_error c index = Some g ->
  Permutation (concat (extend_at index item c)) (item :: concat c).
Proof.
  revert index. induction c as [| g0 rest IH]; intros index.
  - destruct index; discriminate.
  - destruct index as [| i]; cbn [nth_error extend_at]; intros H.
    + apply concat_extend_head.
    + apply concat_skip_head, IH, H.
Qed.

Lemma balance_perm (self : SeatingChart) (item : string) (c c' : Chart) :
  balance_nested_list self item c = inr c' ->
  Permutation (concat c') (item :: concat c).
Proof.
  destruct c as [| g rest]; [intros H; ok_inv H; apply Permutation_refl |].
  destruct (index_min_size_spec g rest) as (smallest & Hnth & _).
  unfold balance_nested_list.
  repeat match goal with
         | |- context [if ?b then _ else _] => destruct b
         end;
    intros H; try discriminate; ok_inv H;
    first [apply concat_new_group | eapply extend_at_perm, Hnth].
Qed.

Lemma for_each_balance_perm (self : SeatingChart) (items : list string) :
  forall c c',
    for_each (balance_nested_list self) items c = inr c' ->
    Permutation (concat c') (items ++ concat c).
Proof.
  induction items as [| item items IH]; intros c c'; cbn [for_each].
  - intros H. ok_inv H. apply Permutation_refl.
  - destruct (balance_nested_list self item c) as [e | c1] eqn:E; cbn [bind];
      [discriminate |].
    intros H. apply perm_trans with (items ++ concat c1); [apply IH, H |].
    apply perm_trans with (items ++ item :: concat c).
    + apply Permutation_app_head, (balance_perm self item c c1 E).
    + apply Permutation_sym. simpl. apply Permutation_middle.
Qed.

Lemma append_scan_perm (pairs : list Pair) (limit : option Z) (item : string)
  (c c' : Chart) :
  append_scan pairs limit item c = Some c' ->
  Permutation (concat c') (item :: concat c).
Proof.
  revert c'. induction c as [| g rest IH]; intros c'; cbn [append_scan];
    [discriminate |].
  assert (Hskip : option_map (cons g) (append_scan pairs limit item rest) = Some c' ->
                  Permutation (concat c') (item :: concat (g :: rest))).
  { destruct (append_scan pairs limit item rest) as [rest' |]; [| discriminate].
    intros H. ok_inv H. apply concat_skip_head, IH. reflexivity. }
  assert (Hadd : Some ((g ++ [item]) :: rest) = Some c' ->
                 Permutation (concat c') (item :: concat (g :: rest))).
  { intros H. ok_inv H. apply concat_extend_head. }
  destruct (mem item g); [exact Hskip |].
  destruct (can_add_item_to_group pairs item g); [| exact Hskip].
  destruct limit as [m |]; [destruct (m <=? len g); [exact Hskip |] |]; exact Hadd.
Qed.

Lemma append_item_perm (self : SeatingChart) (item : string) (c c' : Chart) :
  apart self <> None ->
  append_item self item c = inr c' ->
  Permutation (concat c') (item :: concat c).
Proof.
  intros Hapart. unfold append_item.
  destruct (apart self) as [pairs |]; [| congruence].
  destruct (append_scan pairs (max_size self) item c) as [c1 |] eqn:E;
    intros H; ok_inv H.
  - eapply append_scan_perm, E.
  - apply concat_new_group.
Qed.

Lemma get_nested_index_none (item : string) (c : Chart) :
  get_nested_index item c = inr None -> ~ placed c item.
Proof.
  unfold get_nested_index.
  destruct (filter (fun i => mem item i) c) as [| g l] eqn:E.
  - intros _ Hplaced. apply placed_iff in Hplaced.
    destruct Hplaced as (g & Hg & Hitem).
    assert (Hin : In g (filter (fun i => mem item i) c)).
    { apply filter_In. split; [exact Hg | apply mem_In, Hitem]. }
    rewrite E in Hin. exact Hin.
  - simpl. destruct (map _ l); discriminate.
Qed.

(** One apart pair of two distinct individuals: nobody is placed twice,
    and whoever is placed was placed before or belongs to the pair. *)
Lemma apart_step_members (self : SeatingChart) (a b : string) (c c' : Chart) :
  apart self <> None -> a <> b ->
  NoDup (concat c) ->
  apart_step self (a, b) c = inr c' ->
  NoDup (concat c')
  /\ forall x, In x (concat c') -> In x (concat c) \/ x = a \/ x = b.
Proof.
  intros Hapart Hab Hnodup. unfold apart_step.
  destruct (get_nested_index a c) as [e | i1] eqn:E1; cbn [bind]; [discriminate |].
  destruct (get_nested_index b c) as [e | i2] eqn:E2; cbn [bind]; [discriminate |].
  assert (Hone : forall item c1 c2,
             ~ placed c1 item -> NoDup (concat c1) ->
             append_item self item c1 = inr c2 ->
             NoDup (concat c2)
             /\ forall x, In x (concat c2) -> In x (concat c1) \/ x = item).
  { intros item c1 c2 Hfree Hnd H.
    pose proof (append_item_perm self item c1 c2 Hapart H) as Hperm. split.
    - apply (Permutation_NoDup (Permutation_sym Hperm)). constructor; assumption.
    - intros x Hx. apply (Permutation_in _ Hperm) in Hx.
      destruct Hx as [-> | Hx]; auto. }
  destruct c as [| g rest].
  - intros H. ok_inv H. simpl. split.
    + constructor; [simpl; intuition congruence | repeat constructor; auto].
    + intuition.
  - destruct i1 as [n1 |], i2 as [n2 |].
    + intros H. ok_inv H. split; [exact Hnodup | auto].
    + intros H. apply get_nested_index_none in E2.
      destruct (Hone b _ _ E2 Hnodup H) as [Hnd Hmem].
      split; [exact Hnd |]. intros x Hx. destruct (Hmem x Hx); auto.
    + intros H. apply get_nested_index_none in E1.
      destruct (Hone a _ _ E1 Hnodup H) as [Hnd Hmem].
      split; [exact Hnd |]. intros x Hx. destruct (Hmem x Hx); auto.
    + destruct (append_item self a (g :: rest)) as [e | c1] eqn:Ea; cbn [bind];
        [discriminate |].
      intros H.
      apply get_nested_index_none in E1. apply get_nested_index_none in E2.
      destruct (Hone a _ _ E1 Hnodup Ea) as [Hnd1 Hmem1].
      assert (Hfree : ~ placed c1 b).
      { intros Hb. destruct (Hmem1 b Hb) as [Hb' | Hb']; [now apply E2 | congruence]. }
      destruct (Hone b _ _ Hfree Hnd1 H) as [Hnd Hmem].
      split; [exact Hnd |].
      intros x Hx. destruct (Hmem x Hx) as [Hx' | Hx']; [| auto].
      destruct (Hmem1 x Hx'); auto.
Qed.

Lemma for_each_apart_members (self : SeatingChart) (todo : list Pair) :
  apart self <> None -> proper_pairs todo ->
  forall c c',
    NoDup (concat c) ->
    for_each (apart_step self) todo c = inr c' ->
    NoDup (concat c')
    /\ forall x, In x (concat c') -> In x (concat c) \/ In x (flat_map pair_list todo).
Proof.
  intros Hapart. induction todo as [| [a b] todo IH]; intros Hproper c c' Hnodup;
    cbn [for_each].
  - intros H. ok_inv H. split; [exact Hnodup | auto].
  - destruct (apart_step self (a, b) c) as [e | c1] eqn:E; cbn [bind];
      [discriminate |].
    intros H.
    destruct (apart_step_members self a b c c1 Hapart) as [Hnd1 Hmem1];
      [apply Hproper; now left | exact Hnodup | exact E |].
    destruct (IH (fun x y Hxy => Hproper x y (or_intror Hxy)) c1 c' Hnd1 H)
      as [Hnd Hmem].
    split; [exact Hnd |].
    intros x Hx. cbn [flat_map pair_list fst snd]. simpl.
    destruct (Hmem x Hx) as [Hx1 | Hx1]; [| auto].
    destruct (Hmem1 x Hx1) as [Hx0 | [-> | ->]]; auto.
Qed.

Lemma list_remove_incl (x g : Group) (l : Chart) :
  In g (list_remove x l) -> In g l.
Proof.
  induction l as [| y l IH]; simpl; [auto |].
  destruct (group_eqb y x); [auto |].
  intros [<- | Hg]; auto.
Qed.

Section Members.

Variable set_order : list string -> list string.
Variable shuffle : list string -> list string.

Hypothesis set_order_perm :
  forall l, Permutation (set_order l) (nodup string_dec l).
Hypothesis shuffle_perm : forall l, Permutation (shuffle l) l.

Lemma together_step_members (groups : Chart) (pair : Pair) (x : string) :
  placed (together_step set_order groups pair) x ->
  placed groups x \/ In x (pair_list pair).
Proof.
  unfold together_step. destruct groups as [| g0 rest].
  - unfold placed, pair_list. simpl. tauto.
  - destruct (find _ (g0 :: rest)) as [group |] eqn:E.
    + apply find_some in E. destruct E as [Hgroup _].
      intros Hx. apply placed_iff in Hx. destruct Hx as (g & Hg & Hx).
      apply in_app_or in Hg. destruct Hg as [Hg | [<- | []]].
      * left. apply placed_iff. exists g. split; [| exact Hx].
        eapply list_remove_incl, Hg.
      * apply (proj1 (set_order_In set_order set_order_perm _ _)) in Hx.
        apply in_app_or in Hx. destruct Hx as [Hx | Hx]; [now right |].
        left. apply placed_iff. exists group. auto.
    + unfold placed. rewrite concat_app. cbn [concat]. rewrite app_nil_r.
      intros Hx. apply in_app_or in Hx. tauto.
Qed.

Lemma fold_together_members (pairs : list Pair) :
  forall groups x,
    placed (fold_left (together_step set_order) pairs groups) x ->
    placed groups x \/ In x (flat_map pair_list pairs).
Proof.
  induction pairs as [| p pairs IH]; intros groups x; cbn [fold_left flat_map].
  - auto.
  - intros Hx. rewrite in_app_iff.
    destruct (IH _ _ Hx) as [Hx' | Hx']; [| auto].
    destruct (together_step_members _ _ _ Hx'); auto.
Qed.

(** The together stage places nobody but members of together pairs. *)
Lemma handle_together_members (self : SeatingChart) (x : string) :
  placed (handle_together set_order self) x ->
  In x (flat_map pair_list
          (match together self with Some l => l | None => [] end)).
Proof.
  unfold handle_together. destruct (together self) as [pairs |]; [| intros []].
  intros Hx. apply placed_iff in Hx. destruct Hx as (g & Hg & Hx).
  apply (Permutation_in _ (sorted_by_len_desc_perm _)) in Hg.
  destruct (fold_together_members pairs [] x) as [[] | H]; [| exact H].
  apply placed_iff. exists g. auto.
Qed.

Lemma handle_apart_members (self : SeatingChart) (c c' : Chart) :
  (forall pairs, apart self = Some pairs -> proper_pairs pairs) ->
  NoDup (concat c) ->
  handle_apart self c = inr c' ->
  NoDup (concat c')
  /\ forall x,
       placed c' x ->
       placed c x
       \/ In x (flat_map pair_list
                  (match apart self with Some l => l | None => [] end)).
Proof.
  intros Hproper Hnodup. unfold handle_apart.
  destruct (apart self) as [pairs |] eqn:Ea.
  - apply for_each_apart_members; [congruence | now apply Hproper | exact Hnodup].
  - intros H. ok_inv H. split; [exact Hnodup | auto].
Qed.

Lemma handle_remaining_members (self : SeatingChart) (names : list string)
  (c c' : Chart) :
  roster self = Some names ->
  NoDup (concat c) ->
  handle_remaining set_order shuffle self c = inr c' ->
  NoDup (concat c')
  /\ forall x, placed c' x <-> placed c x \/ In x names.
Proof.
  intros Hr Hnodup. unfold handle_remaining. rewrite Hr.
  set (items := shuffle (set_order
                  (filter (fun name => negb (mem name (concat c))) names))).
  intros H. pose proof (for_each_balance_perm self items c c' H) as Hperm.
  assert (Hitems : forall x, In x items <-> In x names /\ ~ placed c x).
  { intros x. unfold items. split.
    - apply remaining_In; assumption.
    - intros [Hx Hfree].
      apply (Permutation_in _ (Permutation_sym (shuffle_perm _))).
      apply (set_order_In set_order set_order_perm).
      apply filter_In. split; [exact Hx |]. apply negb_true_iff, mem_false, Hfree. }
  split.
  - apply (Permutation_NoDup (Permutation_sym Hperm)).
    apply NoDup_app; [| exact Hnodup | intros x Hx; apply Hitems, Hx].
    unfold items. apply (Permutation_NoDup (Permutation_sym (shuffle_perm _))).
    apply set_order_NoDup, set_order_perm.
  - intros x. unfold placed at 1. split.
    + intros Hx. apply (Permutation_in _ Hperm) in Hx.
      apply in_app_or in Hx. destruct Hx as [Hx | Hx]; [| now left].
      right. apply Hitems, Hx.
    + intros Hx. apply (Permutation_in _ (Permutation_sym Hperm)).
      apply in_or_app.
      destruct (mem x (concat c)) eqn:E.
      * right. apply mem_In, E.
      * apply mem_false in E. destruct Hx as [Hx | Hx]; [contradiction |].
        left. apply Hitems. auto.
Qed.

End Members.

(** X3: when generation succeeds, the final chart holds every individual of
    the roster exactly once, and nobody else, provided the together stage
    has placed nobody twice, no apart pair names one individual twice, and
    the roster holds everyone the pairs name (as construction ensures). *)
Theorem roster_placed_once_unless_together_repeats :
  forall (set_order shuffle : list string -> list string),
    (forall l, Permutation (set_order l) (nodup string_dec l)) ->
    (forall l, Permutation (shuffle l) l) ->
    forall (self : SeatingChart) (names : list string) (c : Chart),
      roster self = Some names ->
      (forall x, In x (all_together_apart self) -> In x names) ->
      (forall pairs, apart self = Some pairs -> proper_pairs pairs) ->
      NoDup (concat (handle_together set_order self)) ->
      generate_chart set_order shuffle self = inr c ->
      NoDup (concat c) /\ forall x, In x (concat c) <-> In x names.
Proof.
  intros set_order shuffle Hset Hshuffle self names c Hr Hnamed Hproper Hnodup Hgen.
  unfold generate_chart in Hgen.
  destruct (handle_apart self (handle_together set_order self)) as [e | c2] eqn:E2;
    cbn [bind] in Hgen; [discriminate |].
  destruct (validate_group_size self c2) as [e | []]; cbn [bind] in Hgen;
    [discriminate |].
  destruct (handle_remaining set_order shuffle self c2) as [e | c3] eqn:E3;
    cbn [bind] in Hgen; [discriminate |].
  destruct (validate_number_of_groups self c3) as [e | []]; cbn [bind] in Hgen;
    [discriminate |].
  ok_inv Hgen.
  destruct (handle_apart_members self _ _ Hproper Hnodup E2) as [Hnd2 Hmem2].
  destruct (handle_remaining_members set_order shuffle Hset Hshuffle
              self names c2 c3 Hr Hnd2 E3) as [Hnd3 Hmem3].
  split; [exact Hnd3 |].
  intros x. fold (placed c3 x). rewrite Hmem3. split; [| auto].
  intros [Hx | Hx]; [| exact Hx].
  apply Hnamed. unfold all_together_apart. apply in_or_app.
  destruct (Hmem2 x Hx) as [Hx1 | Hx1]; [left | right; exact Hx1].
  apply (handle_together_members set_order Hset), Hx1.
Qed.

(** The fixtures of the test suite: all eight names, each once. *)
Lemma roster_placed_once_unless_together_repeats_witness :
  NoDup (concat fixture_chart)
  /\ forall x,
       In x (concat fixture_chart) <->
       In x ["Amy"; "Bob"; "Cara"; "Dan"; "Emma"; "Felix"; "Gail"; "Hank"].
Proof.
  apply (roster_placed_once_unless_together_repeats insertion_order no_shuffle
           insertion_order_perm no_shuffle_perm fixture_object
           ["Amy"; "Bob"; "Cara"; "Dan"; "Emma"; "Felix"; "Gail"; "Hank"]
           fixture_chart).
  - reflexivity.
  - intros x Hx. simpl in Hx |- *. intuition.
  - intros pairs H. injection H as <-.
    intros a b [H | [H | []]]; injection H as <- <-; discriminate.
  - vm_compute. repeat constructor; simpl; intuition discriminate.
  - vm_compute. reflexivity.
Defined.

(** ** Objects as construction and the public methods leave them *)

Lemma generate_chart_ignores_cache (set_order shuffle : list string -> list string)
  (self : SeatingChart) (cache : option Chart) :
  generate_chart set_order shuffle
    (mkSeatingChart (together self) (apart self) (max_size self) (num_groups self)
       (roster self) cache)
  = generate_chart set_order shuffle self.
Proof. destruct self. reflexivity. Qed.

Lemma well_formed_ignores_cache (self : SeatingChart) (cache : option Chart) :
  well_formed self ->
  well_formed
    (mkSeatingChart (together self) (apart self) (max_size self) (num_groups self)
       (roster self) cache).
Proof. destruct self. exact (fun wf => wf). Qed.

Lemma validate_integer_inputs_positive (v : PyNumber) (r : option Z) :
  validate_integer_inputs v = inr r -> forall k, r = Some k -> 1 <= k.
Proof.
  destruct v as [| n |]; simpl; try discriminate.
  - intros H. ok_inv H. discriminate.
  - destruct (Z.ltb_spec n 1) as [| Hge]; [discriminate |].
    intros H. ok_inv H. intros k E. injection E as <-. exact Hge.
Qed.

Lemma validate_together_apart_ok (t a t' a' : option (list Pair)) :
  validate_together_apart t a = inr (t', a') ->
  t' = t /\ a' = a
  /\ forall tl al pair_1 pair_2,
       t = Some tl -> a = Some al -> In pair_1 tl -> In pair_2 al ->
       same_set pair_1 pair_2 = false.
Proof.
  unfold validate_together_apart.
  destruct t as [tl |], a as [al |];
    try (intros H; apply Ok_inj in H; injection H as <- <-;
         repeat split; congruence).
  destruct (existsb _ tl) eqn:E; [discriminate |].
  intros H. apply Ok_inj in H. injection H as <- <-.
  repeat split. intros tl' al' p1 p2 Ht Ha H1 H2.
  injection Ht as <-. injection Ha as <-.
  destruct (same_set p1 p2) eqn:Es; [| reflexivity].
  assert (existsb (fun pair_1 => existsb (fun pair_2 => same_set pair_1 pair_2) al) tl
          = true); [| congruence].
  apply existsb_exists. exists p1. split; [exact H1 |].
  apply existsb_exists. exists p2. auto.
Qed.

(** X6: an object that construction returns holds the pairs it was given,
    has no chart cached, and is well formed: positive limits, no together
    pair equal to an apart pair as a set, and, as soon as the pairs name
    somebody, an ascending roster that holds everyone named. *)
Theorem init_establishes_well_formed :
  forall (set_order : list string -> list string),
    (forall l, Permutation (set_order l) (nodup string_dec l)) ->
    forall (names : option (list string)) (t a : option (list Pair))
           (m n : PyNumber) (self : SeatingChart),
      init set_order names t a m n = inr self ->
      together self = t /\ apart self = a /\ chart_cache self = None
      /\ well_formed self.
Proof.
  intros set_order Hset names t a m n self. unfold init.
  destruct (validate_together_apart t a) as [e | [t' a']] eqn:Eta; cbn [bind];
    [discriminate |].
  destruct (validate_integer_inputs m) as [e | m'] eqn:Em; cbn [bind];
    [discriminate |].
  destruct (validate_integer_inputs n) as [e | n'] eqn:En; cbn [bind];
    [discriminate |].
  apply validate_together_apart_ok in Eta. destruct Eta as (-> & -> & Hcoll).
  intros H. ok_inv H. cbn [fst snd together apart chart_cache].
  repeat split; cbn [max_size num_groups together apart roster].
  - intros k. apply (validate_integer_inputs_positive m m' Em).
  - intros k. apply (validate_integer_inputs_positive n n' En).
  - exact Hcoll.
  - intros Hne.
    destruct (validate_roster_named set_order Hset
                (mkSeatingChart t a m' n' None None) names Hne)
      as (sorted & E & Hsorted & Hin).
    exists sorted. split; [exact E |]. split; [exact Hsorted |].
    intros x Hx. apply Hin. right. exact Hx.
Qed.

(** X6 on the test suite's fixtures. *)
Lemma init_establishes_well_formed_witness :
  together fixture_object = Some [("Amy", "Bob"); ("Gail", "Hank")]
  /\ apart fixture_object = Some [("Amy", "Dan"); ("Dan", "Felix")]
  /\ chart_cache fixture_object = None
  /\ well_formed fixture_object.
Proof.
  apply (init_establishes_well_formed insertion_order insertion_order_perm
           (Some ["Hank"; "Gail"; "Felix"; "Emma"; "Dan"; "Cara"; "Bob"; "Amy"])
           (Some [("Amy", "Bob"); ("Gail", "Hank")])
           (Some [("Amy", "Dan"); ("Dan", "Felix")])
           PyNone PyNone fixture_object).
  vm_compute. reflexivity.
Defined.

Lemma same_configuration_cache (self : SeatingChart) (cache : option Chart) :
  same_configuration self
    (mkSeatingChart (together self) (apart self) (max_size self) (num_groups self)
       (roster self) cache).
Proof. repeat split. Qed.

Lemma same_configuration_refl (self : SeatingChart) : same_configuration self self.
Proof. repeat split. Qed.

Lemma well_formed_same_configuration (self self' : SeatingChart) :
  same_configuration self self' -> well_formed self -> well_formed self'.
Proof.
  intros [[Ht [Ha Hr]] [Hm Hn]]. unfold well_formed, all_together_apart.
  rewrite Ht, Ha, Hr, Hm, Hn. exact (fun wf => wf).
Qed.

(** What a read of [chart] does to the object. *)
Lemma chart_effect (set_order shuffle : list string -> list string)
  (self self' : SeatingChart) (r : result Chart) :
  chart set_order shuffle self = (r, self') ->
  same_configuration self self'
  /\ match r with
     | inl _ => self' = self /\ chart_cache self = None
     | inr c =>
         chart_cache self' = Some c
         /\ (chart_cache self = None -> generate_chart set_order shuffle self = inr c)
     end.
Proof.
  unfold chart. destruct (chart_cache self) as [c0 |] eqn:Ec.
  - intros H. injection H as <- <-; cbv [Raise Ok]. split; [apply same_configuration_refl |].
    split; [exact Ec | discriminate].
  - destruct (generate_chart set_order shuffle self) as [e | c] eqn:Eg;
      intros H; injection H as <- <-; cbv [Raise Ok].
    + split; [apply same_configuration_refl | auto].
    + split; [apply same_configuration_cache | auto].
Qed.

(** What [new()] does to the object. *)
Lemma new_effect (set_order shuffle : list string -> list string)
  (self self' : SeatingChart) (r : result Chart) :
  new set_order shuffle self = (r, self') ->
  same_configuration self self'
  /\ match r with
     | inl _ => self' = self
     | inr c =>
         chart_cache self' = Some c /\ generate_chart set_order shuffle self = inr c
     end.
Proof.
  unfold new.
  destruct (generate_chart set_order shuffle self) as [e | c] eqn:Eg;
    intros H; injection H as <- <-; cbv [Raise Ok].
  - split; [apply same_configuration_refl | reflexivity].
  - split; [apply same_configuration_cache | auto].
Qed.

(** The first step of [update]: a [max_size] that is given is validated and
    stored. *)
Lemma update_max_size_step (arg : UpdateArg) (self self1 : SeatingChart) :
  match arg with
  | Unchanged => Ok self
  | Given v =>
      m <- validate_integer_inputs v ;;
      Ok (mkSeatingChart (together self) (apart self) m (num_groups self)
            (roster self) (chart_cache self))
  end = inr self1 ->
  same_constraints self self1
  /\ num_groups self1 = num_groups self
  /\ chart_cache self1 = chart_cache self
  /\ (arg = Unchanged -> max_size self1 = max_size self)
  /\ (forall v, arg = Given v -> validate_integer_inputs v = inr (max_size self1)).
Proof.
  destruct arg as [| v].
  - intros H. ok_inv H. repeat split. discriminate.
  - destruct (validate_integer_inputs v) as [e | m] eqn:E; cbn [bind];
      [discriminate |].
    intros H. ok_inv H. repeat split; [discriminate |].
    intros v' Hv. injection Hv as <-. exact E.
Qed.

(** The second step of [update], for [num_groups]. *)
Lemma update_num_groups_step (arg : UpdateArg) (self self1 : SeatingChart) :
  match arg with
  | Unchanged => Ok self
  | Given v =>
      n <- validate_integer_inputs v ;;
      Ok (mkSeatingChart (together self) (apart self) (max_size self) n
            (roster self) (chart_cache self))
  end = inr self1 ->
  same_constraints self self1
  /\ max_size self1 = max_size self
  /\ chart_cache self1 = chart_cache self
  /\ (arg = Unchanged -> num_groups self1 = num_groups self)
  /\ (forall v, arg = Given v -> validate_integer_inputs v = inr (num_groups self1)).
Proof.
  destruct arg as [| v].
  - intros H. ok_inv H. repeat split. discriminate.
  - destruct (validate_integer_inputs v) as [e | n] eqn:E; cbn [bind];
      [discriminate |].
    intros H. ok_inv H. repeat split; [discriminate |].
    intros v' Hv. injection Hv as <-. exact E.
Qed.

(** A limit that [update] leaves alone or validates is positive. *)
Lemma updated_limit_positive (arg : UpdateArg) (old new : option Z) :
  (arg = Unchanged -> new = old) ->
  (forall v, arg = Given v -> validate_integer_inputs v = inr new) ->
  (forall k, old = Some k -> 1 <= k) ->
  forall k, new = Some k -> 1 <= k.
Proof.
  intros Hsame Hgiven Hold. destruct arg as [| v].
  - rewrite (Hsame eq_refl). exact Hold.
  - exact (validate_integer_inputs_positive v new (Hgiven v eq_refl)).
Qed.

Lemma well_formed_new_limits (self self' : SeatingChart) :
  same_constraints self self' ->
  (forall k, max_size self' = Some k -> 1 <= k) ->
  (forall k, num_groups self' = Some k -> 1 <= k) ->
  well_formed self -> well_formed self'.
Proof.
  intros (Ht & Ha & Hr) Hm Hn (_ & _ & Hcoll & Hroster).
  unfold well_formed, all_together_apart. rewrite Ht, Ha, Hr.
  split; [exact Hm |]. split; [exact Hn |]. split; [exact Hcoll | exact Hroster].
Qed.

Lemma same_constraints_trans (s1 s2 s3 : SeatingChart) :
  same_constraints s1 s2 -> same_constraints s2 s3 -> same_constraints s1 s3.
Proof.
  intros (Ht & Ha & Hr) (Ht' & Ha' & Hr'). repeat split; congruence.
Qed.

(** What [update(...)] does to the object. *)
Lemma update_effect (set_order shuffle : list string -> list string)
  (new_max_size new_num_groups : UpdateArg)
  (self self' : SeatingChart) (r : result unit) :
  update set_order shuffle new_max_size new_num_groups self = (r, self') ->
  same_constraints self self'
  /\ (well_formed self -> well_formed self')
  /\ match r with
     | inl _ => chart_cache self' = chart_cache self
     | inr _ =>
         (forall v, new_max_size = Given v ->
                    validate_integer_inputs v = inr (max_size self'))
         /\ (forall v, new_num_groups = Given v ->
                       validate_integer_inputs v = inr (num_groups self'))
         /\ (new_max_size = Unchanged -> max_size self' = max_size self)
         /\ (new_num_groups = Unchanged -> num_groups self' = num_groups self)
         /\ exists c,
              chart_cache self' = Some c
              /\ generate_chart set_order shuffle self' = inr c
     end.
Proof.
  unfold update.
  destruct (match new_max_size with Unchanged => _ | Given v => _ end)
    as [e | self1] eqn:E1.
  { intros H. injection H as <- <-. cbv [Raise].
    split; [repeat split |]. split; [exact (fun wf => wf) | reflexivity]. }
  apply update_max_size_step in E1.
  destruct E1 as (Hc1 & Hn1 & Hcache1 & Hm1 & Hm1').
  assert (Hpos1 : well_formed self -> forall k, max_size self1 = Some k -> 1 <= k).
  { intros wf. apply (updated_limit_positive new_max_size (max_size self));
      [exact Hm1 | exact Hm1' | apply wf]. }
  destruct (match new_num_groups with Unchanged => _ | Given v => _ end)
    as [e | self2] eqn:E2.
  { intros H. injection H as <- <-. cbv [Raise].
    split; [exact Hc1 |]. split; [| exact Hcache1].
    intros wf. apply (well_formed_new_limits self self1 Hc1 (Hpos1 wf)); [| exact wf].
    rewrite Hn1. apply wf. }
  apply update_num_groups_step in E2.
  destruct E2 as (Hc2 & Hm2 & Hcache2 & Hn2 & Hn2').
  pose proof (same_constraints_trans _ _ _ Hc1 Hc2) as Hc.
  assert (Hwf : well_formed self -> well_formed self2).
  { intros wf. apply (well_formed_new_limits self self2 Hc); [| | exact wf].
    - rewrite Hm2. exact (Hpos1 wf).
    - apply (updated_limit_positive new_num_groups (num_groups self1));
        [exact Hn2 | exact Hn2' |]. rewrite Hn1. apply wf. }
  destruct (generate_chart set_order shuffle self2) as [e | c] eqn:Eg;
    intros H; injection H as <- <-; cbv [Raise Ok].
  - split; [exact Hc |]. split; [exact Hwf | congruence].
  - split; [exact Hc |].
    split; [intros wf; apply well_formed_ignores_cache, Hwf, wf |].
    cbn [max_size num_groups chart_cache].
    split; [intros v Hv; rewrite Hm2; exact (Hm1' v Hv) |].
    split; [exact Hn2' |].
    split; [intros Hu; rewrite Hm2; exact (Hm1 Hu) |].
    split; [intros Hu; rewrite (Hn2 Hu); exact Hn1 |].
    exists c. split; [reflexivity |].
    rewrite generate_chart_ignores_cache. exact Eg.
Qed.

(** X7: no public method ever changes the pairs or the roster of an object,
    and each of them, whether it returns or raises, leaves a well-formed
    object well formed. *)
Theorem public_methods_preserve_well_formed :
  forall (set_order shuffle : list string -> list string)
         (new_max_size new_num_groups : UpdateArg) (self self' : SeatingChart),
    (exists r, chart set_order shuffle self = (r, self'))
    \/ (exists r, new set_order shuffle self = (r, self'))
    \/ (exists r, update set_order shuffle new_max_size new_num_groups self = (r, self')) ->
    same_constraints self self' /\ (well_formed self -> well_formed self').
Proof.
  intros set_order shuffle a b self self' [[r H] | [[r H] | [r H]]].
  - apply chart_effect in H. destruct H as [Hsame _].
    split; [apply Hsame | apply well_formed_same_configuration, Hsame].
  - apply new_effect in H. destruct H as [Hsame _].
    split; [apply Hsame | apply well_formed_same_configuration, Hsame].
  - apply update_effect in H. destruct H as (Hsame & Hwf & _). auto.
Qed.

(** X7 on the fixtures: [update(max_size=0)] raises and changes nothing. *)
Lemma public_methods_preserve_well_formed_witness :
  same_constraints fixture_object fixture_object
  /\ (well_formed fixture_object -> well_formed fixture_object).
Proof.
  apply (public_methods_preserve_well_formed insertion_order no_shuffle
           (Given (PyInt 0)) Unchanged fixture_object fixture_object).
  right. right. exists (inl PositiveInteger). reflexivity.
Defined.

(** A generated chart is within the limits of a well-formed object. *)
Lemma generate_chart_within_limits (set_order shuffle : list string -> list string)
  (self : SeatingChart) (c : Chart) :
  well_formed self ->
  generate_chart set_order shuffle self = inr c ->
  within_limits self c.
Proof.
  intros (Hpos & _) Hgen. unfold generate_chart in Hgen.
  destruct (handle_apart self (handle_together set_order self)) as [e | c2];
    cbn [bind] in Hgen; [discriminate |].
  destruct (validate_group_size self c2) as [e | []] eqn:Esize;
    cbn [bind] in Hgen; [discriminate |].
  destruct (handle_remaining set_order shuffle self c2) as [e | c3] eqn:E3;
    cbn [bind] in Hgen; [discriminate |].
  destruct (validate_number_of_groups self c3) as [e | []] eqn:Ecount;
    cbn [bind] in Hgen; [discriminate |].
  ok_inv Hgen. split.
  - intros n Hn. unfold validate_number_of_groups in Ecount. rewrite Hn in Ecount.
    destruct (Z.ltb_spec n (len c3)); [discriminate | assumption].
  - intros m Hm. unfold handle_remaining in E3.
    destruct (roster self) as [names |]; [| discriminate].
    eapply for_each_balance_bounded; [exact Hm | exact (Hpos m Hm) | | exact E3].
    eapply validate_group_size_ok; eassumption.
Qed.

Lemma within_limits_same_configuration (self self' : SeatingChart) (c : Chart) :
  same_configuration self self' -> within_limits self c -> within_limits self' c.
Proof.
  intros (_ & Hm & Hn). unfold within_limits. rewrite Hm, Hn. exact (fun w => w).
Qed.

Lemma chart_cached (set_order shuffle : list string -> list string)
  (self : SeatingChart) (c : Chart) :
  chart_cache self = Some c -> chart set_order shuffle self = (inr c, self).
Proof. intros H. unfold chart. rewrite H. reflexivity. Qed.

(** X8: the chart that a well-formed object without a cached chart returns
    on a read, or that [new()] returns, is within the object's limits, and
    every later read returns that same chart and leaves the object as it
    is, whatever the shuffle would be. *)
Theorem generated_chart_is_cached_within_limits :
  forall (set_order shuffle shuffle' : list string -> list string)
         (self self' : SeatingChart) (c : Chart),
    well_formed self ->
    (chart_cache self = None /\ chart set_order shuffle self = (inr c, self'))
    \/ new set_order shuffle self = (inr c, self') ->
    within_limits self' c
    /\ chart set_order shuffle' self' = (inr c, self').
Proof.
  intros set_order shuffle shuffle' self self' c wf [[Hnone H] | H].
  - apply chart_effect in H. destruct H as (Hsame & Hcache & Hgen).
    split; [| apply chart_cached, Hcache].
    apply (within_limits_same_configuration self self' c Hsame).
    apply (generate_chart_within_limits set_order shuffle self c wf (Hgen Hnone)).
  - apply new_effect in H. destruct H as (Hsame & Hcache & Hgen).
    split; [| apply chart_cached, Hcache].
    apply (within_limits_same_configuration self self' c Hsame).
    apply (generate_chart_within_limits set_order shuffle self c wf Hgen).
Qed.

Lemma fixture_object_well_formed : well_formed fixture_object.
Proof.
  split; [| split; [| split]].
  - intros m H. discriminate.
  - intros n H. discriminate.
  - intros tl al p1 p2 Ht Ha H1 H2. injection Ht as <-. injection Ha as <-.
    simpl in H1, H2.
    destruct H1 as [<- | [<- | []]], H2 as [<- | [<- | []]]; reflexivity.
  - intros _. eexists. split; [reflexivity |]. split.
    + repeat (constructor; try reflexivity).
    + intros x Hx. simpl in Hx |- *. intuition.
Qed.

(** X8 on the fixtures. *)
Lemma generated_chart_is_cached_within_limits_witness :
  within_limits
    (mkSeatingChart (together fixture_object) (apart fixture_object) None None
       (roster fixture_object) (Some fixture_chart))
    fixture_chart
  /\ chart insertion_order no_shuffle
       (mkSeatingChart (together fixture_object) (apart fixture_object) None None
          (roster fixture_object) (Some fixture_chart))
     = (inr fixture_chart,
        mkSeatingChart (together fixture_object) (apart fixture_object) None None
          (roster fixture_object) (Some fixture_chart)).
Proof.
  apply (generated_chart_is_cached_within_limits insertion_order no_shuffle
           no_shuffle fixture_object).
  - exact fixture_object_well_formed.
  - left. split; [reflexivity | vm_compute; reflexivity].
Defined.

(** X9: when [update(...)] returns on a well-formed object, a limit that was
    given as an integer is the object's limit from then on, and the chart
    that every later read returns is within both limits: no group is larger
    than a [max_size] just given and there are no more groups than a
    [num_groups] just given. *)
Theorem update_regenerates_within_new_limits :
  forall (set_order shuffle shuffle' : list string -> list string)
         (new_max_size new_num_groups : UpdateArg) (self self' : SeatingChart),
    well_formed self ->
    update set_order shuffle new_max_size new_num_groups self = (inr tt, self') ->
    exists c,
      chart set_order shuffle' self' = (inr c, self')
      /\ within_limits self' c
      /\ (forall m, new_max_size = Given (PyInt m) ->
                    max_size self' = Some m /\ Forall (fun g => len g <= m) c)
      /\ (forall n, new_num_groups = Given (PyInt n) ->
                    num_groups self' = Some n /\ len c <= n).
Proof.
  intros set_order shuffle shuffle' a b self self' wf H.
  apply update_effect in H.
  destruct H as (_ & Hwf & Hmax & Hnum & _ & _ & c & Hcache & Hgen).
  pose proof (generate_chart_within_limits set_order shuffle self' c (Hwf wf) Hgen)
    as Hlimits.
  assert (Hint : forall k r, validate_integer_inputs (PyInt k) = inr r -> r = Some k).
  { intros k r. simpl. destruct (k <? 1); [discriminate |].
    intros E. ok_inv E. reflexivity. }
  exists c. split; [apply chart_cached, Hcache |]. split; [exact Hlimits |]. split.
  - intros m Hm. pose proof (Hint m _ (Hmax _ Hm)) as E.
    split; [exact E | apply Hlimits, E].
  - intros n Hn. pose proof (Hint n _ (Hnum _ Hn)) as E.
    split; [exact E | apply Hlimits, E].
Qed.

(** X9 in the scenario of [test_update_max_size]: four individuals,
    [max_size] lowered to 2. *)
Lemma update_regenerates_within_new_limits_witness :
  exists c,
    chart insertion_order no_shuffle
      (mkSeatingChart None None (Some 2) None (Some ["Amy"; "Bob"; "Cara"; "Dan"])
         (Some [["Amy"; "Bob"]; ["Cara"; "Dan"]]))
    = (inr c,
       mkSeatingChart None None (Some 2) None (Some ["Amy"; "Bob"; "Cara"; "Dan"])
         (Some [["Amy"; "Bob"]; ["Cara"; "Dan"]]))
    /\ within_limits
         (mkSeatingChart None None (Some 2) None (Some ["Amy"; "Bob"; "Cara"; "Dan"])
            (Some [["Amy"; "Bob"]; ["Cara"; "Dan"]]))
         c
    /\ (forall m, Given (PyInt 2) = Given (PyInt m) ->
                  Some 2 = Some m /\ Forall (fun g => len g <= m) c)
    /\ (forall n, Unchanged = Given (PyInt n) -> None = Some n /\ len c <= n).
Proof.
  apply (update_regenerates_within_new_limits insertion_order no_shuffle no_shuffle
           (Given (PyInt 2)) Unchanged
           (mkSeatingChart None None (Some 4) None
              (Some ["Amy"; "Bob"; "Cara"; "Dan"])
              (Some [["Amy"; "Bob"; "Cara"; "Dan"]]))).
  - split; [| split; [| split]].
    + intros m H. injection H as <-. lia.
    + intros n H. discriminate.
    + intros tl al p1 p2 H. discriminate.
    + intros H. now elim H.
  - vm_compute. reflexivity.
Defined.

Lemma chart_eqb_spec (c1 c2 : Chart) : chart_eqb c1 c2 = true <-> c1 = c2.
Proof.
  unfold chart_eqb.
  destruct (list_eq_dec (list_eq_dec string_dec) c1 c2); split; congruence.
Qed.

(** X10: when the chart of an object can be read, [len(object)] is the
    number of its groups, [object == object] is [True] whatever the
    shuffles, because the second read meets the chart the first one cached,
    and [object == other] is [True] exactly when the chart read from the
    other object is the same list of groups. *)
Theorem data_model_methods_read_through_the_cache :
  forall (set_order shuffle shuffle' : list string -> list string)
         (self self' : SeatingChart) (c : Chart),
    chart set_order shuffle self = (inr c, self') ->
    len_method set_order shuffle self = (inr (len c), self')
    /\ eq_method set_order shuffle shuffle' self Itself = (inr true, self', Itself)
    /\ forall (other other' : SeatingChart) (c2 : Chart),
         chart set_order shuffle' other = (inr c2, other') ->
         exists b,
           eq_method set_order shuffle shuffle' self (Another other)
           = (inr b, self', Another other')
           /\ (b = true <-> c = c2).
Proof.
  intros set_order shuffle shuffle' self self' c H.
  pose proof (chart_effect _ _ _ _ _ H) as (_ & Hcache & _).
  split; [| split].
  - unfold len_method. rewrite H. reflexivity.
  - unfold eq_method. rewrite H.
    rewrite (chart_cached set_order shuffle' self' c Hcache).
    replace (chart_eqb c c) with true; [reflexivity |].
    symmetry. apply chart_eqb_spec. reflexivity.
  - intros other other' c2 H2. exists (chart_eqb c c2). split.
    + unfold eq_method. rewrite H, H2. reflexivity.
    + apply chart_eqb_spec.
Qed.

(** X10 on the fixtures. *)
Lemma data_model_methods_read_through_the_cache_witness :
  len_method insertion_order no_shuffle fixture_object
  = (inr (len fixture_chart),
     mkSeatingChart (together fixture_object) (apart fixture_object) None None
       (roster fixture_object) (Some fixture_chart))
  /\ eq_method insertion_order no_shuffle no_shuffle fixture_object Itself
     = (inr true,
        mkSeatingChart (together fixture_object) (apart fixture_object) None None
          (roster fixture_object) (Some fixture_chart),
        Itself)
  /\ forall (other other' : SeatingChart) (c2 : Chart),
       chart insertion_order no_shuffle other = (inr c2, other') ->
       exists b,
         eq_method insertion_order no_shuffle no_shuffle fixture_object (Another other)
         = (inr b,
            mkSeatingChart (together fixture_object) (apart fixture_object) None None
              (roster fixture_object) (Some fixture_chart),
            Another other')
         /\ (b = true <-> fixture_chart = c2).
Proof.
  apply (data_model_methods_read_through_the_cache insertion_order no_shuffle
           no_shuffle fixture_object).
  vm_compute. reflexivity.
Defined.

(** ** Looking an individual up *)

Lemma filter_singleton_position {A : Type} (p : A -> bool) (l : list A) (x : A) :
  filter p l = [x] ->
  exists k,
    nth_error l k = Some x /\ p x = true
    /\ forall j y, nth_error l j = Some y -> p y = true -> j = k.
Proof.
  induction l as [| h t IH]; simpl; [discriminate |].
  destruct (p h) eqn:Eh.
  - intros H. injection H as -> Ht. exists 0%nat.
    split; [reflexivity |]. split; [exact Eh |].
    intros [| j] y Hj Hy; [reflexivity |]. simpl in Hj.
    apply nth_error_In in Hj.
    assert (Hin : In y (filter p t)) by (apply filter_In; auto).
    rewrite Ht in Hin. contradiction.
  - intros H. destruct (IH H) as (k & Hk & Hp & Huniq). exists (S k).
    split; [exact Hk |]. split; [exact Hp |].
    intros [| j] y Hj Hy; simpl in Hj.
    + injection Hj as <-. congruence.
    + f_equal. eapply Huniq; eassumption.
Qed.

Lemma filter_two_positions {A : Type} (p : A -> bool) (l : list A) (x1 x2 : A)
  (rest : list A) :
  filter p l = x1 :: x2 :: rest ->
  exists j1 j2,
    (j1 < j2)%nat /\ nth_error l j1 = Some x1 /\ nth_error l j2 = Some x2
    /\ p x1 = true /\ p x2 = true.
Proof.
  induction l as [| h t IH]; simpl; [discriminate |].
  destruct (p h) eqn:Eh.
  - intros H. injection H as -> Ht.
    assert (Hin : In x2 (filter p t)) by (rewrite Ht; now left).
    apply filter_In in Hin. destruct Hin as [Hin Hp2].
    apply In_nth_error in Hin. destruct Hin as [n Hn].
    exists 0%nat, (S n). repeat split; [lia | exact Hn | exact Eh | exact Hp2].
  - intros H. destruct (IH H) as (j1 & j2 & Hlt & H1 & H2 & Hp1 & Hp2).
    exists (S j1), (S j2). repeat split; [lia | | | |]; assumption.
Qed.

Lemma index_of_first (x : list string) (l : list (list string)) (k : nat) :
  nth_error l k = Some x ->
  (forall j y, (j < k)%nat -> nth_error l j = Some y -> y <> x) ->
  index_of group_eqb x l = k.
Proof.
  revert k. induction l as [| h t IH]; intros [| k]; simpl; try discriminate.
  - intros H _. injection H as ->. now rewrite group_eqb_refl.
  - intros Hk Hbefore.
    destruct (group_eqb h x) eqn:E.
    + apply group_eqb_eq in E. elim (Hbefore 0%nat h); [lia | reflexivity | exact E].
    + f_equal. apply IH; [exact Hk |].
      intros j y Hj Hy. apply (Hbefore (S j) y); [lia | exact Hy].
Qed.

(** X11: [__get_nested_index] returns [None] exactly when no group holds the
    individual; it returns an index when exactly one position of the chart
    holds a group with the individual, and that index is this position; it
    raises [ValueError] when two positions do. *)
Theorem get_nested_index_finds_the_only_group :
  forall (item : string) (c : Chart),
    match get_nested_index item c with
    | inr None => forall g, In g c -> ~ In item g
    | inr (Some k) =>
        exists g,
          nth_error c k = Some g /\ In item g
          /\ forall j g', nth_error c j = Some g' -> In item g' -> j = k
    | inl e =>
        e = ValueError
        /\ exists j1 j2 g1 g2,
             j1 <> j2 /\ nth_error c j1 = Some g1 /\ nth_error c j2 = Some g2
             /\ In item g1 /\ In item g2
    end.
Proof.
  intros item c. unfold get_nested_index.
  destruct (filter (fun i => mem item i) c) as [| g1 [| g2 rest]] eqn:E; simpl.
  - intros g Hg Hitem.
    assert (Hin : In g (filter (fun i => mem item i) c)).
    { apply filter_In. split; [exact Hg | apply mem_In, Hitem]. }
    rewrite E in Hin. exact Hin.
  - apply filter_singleton_position in E. destruct E as (k & Hk & Hmem & Huniq).
    exists g1.
    assert (Eidx : index_of group_eqb g1 c = k).
    { apply index_of_first; [exact Hk |].
      intros j y Hj Hy ->. specialize (Huniq j g1 Hy Hmem). lia. }
    rewrite Eidx. split; [exact Hk |]. split; [apply mem_In, Hmem |].
    intros j g' Hj Hg'. apply (Huniq j g' Hj). apply mem_In, Hg'.
  - split; [reflexivity |].
    apply filter_two_positions in E.
    destruct E as (j1 & j2 & Hlt & H1 & H2 & Hp1 & Hp2).
    exists j1, j2, g1, g2. repeat split; try assumption; [lia | |]; now apply mem_In.
Qed.

(** ** When generation returns *)

Lemma NoDup_app_disjoint {A : Type} (l1 l2 : list A) (x : A) :
  NoDup (l1 ++ l2) -> In x l1 -> In x l2 -> False.
Proof.
  induction l1 as [| h t IH]; simpl; [intros _ [] |].
  intros Hnd [<- | Hx] Hx2; inversion Hnd as [| ? ? Hnotin Hnd']; subst.
  - apply Hnotin, in_or_app. now right.
  - now apply IH.
Qed.




Section Returns.

Variable self : SeatingChart.







Lemma max_of_le (m : Z) (l : list Z) :
  forall x, x <= m -> Forall (fun z => z <= m) l -> max_of x l <= m.
Proof.
  unfold max_of. induction l as [| z l IH]; intros x Hx Hall; simpl; [exact Hx |].
  apply Forall_cons_iff in Hall. destruct Hall as [Hz Hl].
  apply IH; [lia | exact Hl].
Qed.

Lemma largest_group_bounded (m : Z) (g : Group) (rest : Chart) :
  Forall (fun g0 => len g0 <= m) (g :: rest) ->
  max_of (len g) (map len rest) <= m.
Proof.
  intros Hall. apply Forall_cons_iff in Hall. destruct Hall as [Hg Hrest].
  apply max_of_le; [exact Hg |].
  apply Forall_forall. intros z Hz. apply in_map_iff in Hz.
  destruct Hz as (g' & <- & Hg'). rewrite Forall_forall in Hrest. now apply Hrest.
Qed.




End Returns.



(** ** When the together stage places nobody twice *)

Lemma list_remove_perm (x : list string) (l : list (list string)) :
  In x l -> Permutation l (x :: list_remove x l).
Proof.
  induction l as [| y l IH]; simpl; [intros [] |].
  destruct (group_eqb y x) eqn:E.
  - intros _. apply group_eqb_eq in E. subst y. apply Permutation_refl.
  - intros [-> | Hin]; [now rewrite group_eqb_refl in E |].
    apply perm_trans with (y :: x :: list_remove x l).
    + apply perm_skip, IH, Hin.
    + apply perm_swap.
Qed.

Lemma concat_perm (l l' : list (list string)) :
  Permutation l l' -> Permutation (concat l) (concat l').
Proof.
  induction 1 as [| x l l' _ IH | x y l | l1 l2 l3 _ IH1 _ IH2]; simpl.
  - apply perm_nil.
  - apply Permutation_app_head, IH.
  - rewrite !app_assoc. apply Permutation_app_tail, Permutation_app_comm.
  - eapply perm_trans; eassumption.
Qed.

Lemma in_cons2 (x a b : string) (l : list string) :
  In x (a :: b :: l) <-> x = a \/ x = b \/ In x l.
Proof. simpl. intuition congruence. Qed.

Section TogetherOnce.

Variable set_order : list string -> list string.

Hypothesis set_order_perm :
  forall l, Permutation (set_order l) (nodup string_dec l).

(** The step of the together stage on a pair of two distinct individuals
    who are not both placed already. *)
Lemma together_step_once (groups : Chart) (a b : string) :
  a <> b -> ~ (placed groups a /\ placed groups b) ->
  NoDup (concat groups) ->
  NoDup (concat (together_step set_order groups (a, b)))
  /\ forall x,
       placed (together_step set_order groups (a, b)) x <->
       x = a \/ x = b \/ placed groups x.
Proof.
  intros Hab Hboth Hnd.
  assert (Hpair : NoDup [a; b]).
  { constructor; [simpl; intuition congruence | repeat constructor; auto]. }
  unfold together_step. destruct groups as [| g0 rest].
  - split; [exact Hpair |]. intros x. unfold placed.
    cbn [concat pair_list fst snd app]. rewrite in_cons2. tauto.
  - cbn [fst snd].
    destruct (find (fun group => mem a group || mem b group) (g0 :: rest))
      as [group |] eqn:E.
    + (* the pair joins the first group that holds one of the two *)
      apply find_some in E. destruct E as [Hgroup Hoverlap].
      apply orb_true_iff in Hoverlap.
      pose proof (list_remove_perm group _ Hgroup) as Hperm.
      apply concat_perm in Hperm. cbn [concat] in Hperm.
      set (others := list_remove group (g0 :: rest)) in *.
      set (union := set_order (pair_list (a, b) ++ group)).
      assert (Hunion : forall x, In x union <-> x = a \/ x = b \/ In x group).
      { intros x. unfold union. rewrite (set_order_In set_order set_order_perm).
        cbn [pair_list fst snd app]. apply in_cons2. }
      assert (Hplaced : forall x,
                 placed (g0 :: rest) x <-> In x group \/ In x (concat others)).
      { intros x. unfold placed. rewrite <- in_app_iff.
        split; apply Permutation_in; [exact Hperm | apply Permutation_sym, Hperm]. }
      pose proof (Permutation_NoDup Hperm Hnd) as Hnd'.
      split.
      * rewrite concat_app. cbn [concat]. rewrite app_nil_r.
        apply NoDup_app.
        { eapply NoDup_app_remove_l, Hnd'. }
        { apply set_order_NoDup, set_order_perm. }
        intros x Hx Hxu. apply Hunion in Hxu.
        assert (Hxp : placed (g0 :: rest) x) by (apply Hplaced; now right).
        assert (Hfresh : ~ In x group).
        { intros Hxg. exact (NoDup_app_disjoint _ _ x Hnd' Hxg Hx). }
        destruct Hoverlap as [Ha | Hb].
        { (* [a] is in the group: [x] can only be [b], placed elsewhere *)
          apply mem_In in Ha.
          destruct Hxu as [-> | [-> | Hxg]]; [contradiction | | contradiction].
          apply Hboth. split; [apply Hplaced; now left | exact Hxp]. }
        { apply mem_In in Hb.
          destruct Hxu as [-> | [-> | Hxg]]; [| contradiction | contradiction].
          apply Hboth. split; [exact Hxp | apply Hplaced; now left]. }
      * intros x. unfold placed at 1. rewrite concat_app. cbn [concat].
        rewrite app_nil_r, in_app_iff. fold union. rewrite Hunion, Hplaced. tauto.
    + (* nobody of the pair is placed: a new group *)
      assert (Hfree : forall x, In x [a; b] -> ~ placed (g0 :: rest) x).
      { intros x Hx Hplaced. apply placed_iff in Hplaced.
        destruct Hplaced as (g & Hg & Hxg).
        pose proof (find_none _ _ E g Hg) as Hno. cbn beta in Hno.
        apply orb_false_iff in Hno. destruct Hno as [Hna Hnb].
        apply mem_false in Hna. apply mem_false in Hnb.
        simpl in Hx. destruct Hx as [<- | [<- | []]]; contradiction. }
      split.
      * rewrite concat_app. cbn [concat pair_list fst snd]. rewrite app_nil_r.
        apply NoDup_app; [exact Hnd | exact Hpair |].
        intros x Hx Hxp. exact (Hfree x Hxp Hx).
      * intros x. unfold placed at 1. rewrite concat_app.
        cbn [concat pair_list fst snd]. rewrite app_nil_r, in_app_iff.
        rewrite (in_cons2 x a b []). simpl. tauto.
Qed.

Lemma fold_together_once (pairs : list Pair) :
  forall (seen : list string) (groups : Chart),
    introduces_someone seen pairs ->
    NoDup (concat groups) ->
    (forall x, placed groups x <-> In x seen) ->
    NoDup (concat (fold_left (together_step set_order) pairs groups))
    /\ forall x,
         placed (fold_left (together_step set_order) pairs groups) x <->
         In x (flat_map pair_list pairs) \/ In x seen.
Proof.
  induction pairs as [| [a b] pairs IH]; intros seen groups Hintro Hnd Hseen;
    cbn [fold_left flat_map].
  - split; [exact Hnd |]. intros x. rewrite Hseen. simpl. tauto.
  - destruct Hintro as (Hab & Hboth & Hrest).
    destruct (together_step_once groups a b Hab) as [Hnd1 Hplaced1];
      [rewrite !Hseen; exact Hboth | exact Hnd |].
    destruct (IH (a :: b :: seen) _ Hrest Hnd1) as [Hnd' Hplaced'].
    { intros x. rewrite Hplaced1, Hseen, in_cons2. tauto. }
    split; [exact Hnd' |].
    intros x. rewrite Hplaced', in_app_iff, in_cons2.
    cbn [pair_list fst snd]. rewrite (in_cons2 x a b []). simpl. tauto.
Qed.

Lemma handle_together_once (self : SeatingChart) (pairs : list Pair) :
  together self = Some pairs ->
  introduces_someone [] pairs ->
  NoDup (concat (handle_together set_order self))
  /\ forall x,
       placed (handle_together set_order self) x <-> In x (flat_map pair_list pairs).
Proof.
  intros Ht Hintro. unfold handle_together. rewrite Ht.
  destruct (fold_together_once pairs [] [] Hintro) as [Hnd Hplaced].
  { constructor. }
  { intros x. unfold placed. simpl. tauto. }
  pose proof (concat_perm _ _ (sorted_by_len_desc_perm
                                 (fold_left (together_step set_order) pairs [])))
    as Hperm.
  split.
  - apply (Permutation_NoDup (Permutation_sym Hperm) Hnd).
  - intros x. split; intros Hx.
    + apply (Permutation_in _ Hperm), Hplaced in Hx. destruct Hx as [Hx | []].
      exact Hx.
    + apply (Permutation_in _ (Permutation_sym Hperm)), Hplaced. now left.
Qed.

End TogetherOnce.

(** X13: when the together pairs, met in order, each name two distinct
    individuals of whom at most one was named by an earlier pair, the
    together stage places exactly the individuals the pairs name, each
    once, and the members of every pair in one group. *)
Theorem together_stage_places_everyone_once :
  forall (set_order : list string -> list string),
    (forall l, Permutation (set_order l) (nodup string_dec l)) ->
    forall (self : SeatingChart) (pairs : list Pair),
      together self = Some pairs ->
      introduces_someone [] pairs ->
      NoDup (concat (handle_together set_order self))
      /\ (forall x,
            In x (concat (handle_together set_order self)) <->
            In x (flat_map pair_list pairs))
      /\ forall a b,
           In (a, b) pairs ->
           exists g, In g (handle_together set_order self) /\ In a g /\ In b g.
Proof.
  intros set_order Hset self pairs Ht Hintro.
  destruct (handle_together_once set_order Hset self pairs Ht Hintro) as [Hnd Hplaced].
  split; [exact Hnd |]. split; [exact Hplaced |].
  intros a b Hin. exact (handle_together_shares set_order Hset self pairs a b Ht Hin).
Qed.

(** X13 on a star and a separate pair: A-B, A-C, D-E. *)
Lemma together_stage_places_everyone_once_witness :
  NoDup (concat (handle_together insertion_order
                   (mkSeatingChart (Some [("A", "B"); ("A", "C"); ("D", "E")])
                      None None None None None)))
  /\ (forall x,
        In x (concat (handle_together insertion_order
                        (mkSeatingChart (Some [("A", "B"); ("A", "C"); ("D", "E")])
                           None None None None None))) <->
        In x (flat_map pair_list [("A", "B"); ("A", "C"); ("D", "E")]))
  /\ forall a b,
       In (a, b) [("A", "B"); ("A", "C"); ("D", "E")] ->
       exists g,
         In g (handle_together insertion_order
                 (mkSeatingChart (Some [("A", "B"); ("A", "C"); ("D", "E")])
                    None None None None None))
         /\ In a g /\ In b g.
Proof.
  apply (together_stage_places_everyone_once insertion_order insertion_order_perm
           (mkSeatingChart (Some [("A", "B"); ("A", "C"); ("D", "E")])
              None None None None None)
           [("A", "B"); ("A", "C"); ("D", "E")]).
  - reflexivity.
  - simpl. repeat split; try discriminate; intuition discriminate.
Defined.

(** ** The whole pipeline without limits *)

Lemma generate_chart_inv (set_order shuffle : list string -> list string)
  (self : SeatingChart) (c : Chart) :
  generate_chart set_order shuffle self = inr c ->
  exists chart_2,
    handle_apart self (handle_together set_order self) = inr chart_2
    /\ validate_group_size self chart_2 = inr tt
    /\ handle_remaining set_order shuffle self chart_2 = inr c
    /\ validate_number_of_groups self c = inr tt.
Proof.
  unfold generate_chart.
  destruct (handle_apart self (handle_together set_order self)) as [e | c2] eqn:E2;
    cbn [bind]; [discriminate |].
  destruct (validate_group_size self c2) as [e | []] eqn:Es; cbn [bind];
    [discriminate |].
  destruct (handle_remaining set_order shuffle self c2) as [e | c3] eqn:E3;
    cbn [bind]; [discriminate |].
  destruct (validate_number_of_groups self c3) as [e | []] eqn:En; cbn [bind];
    [discriminate |].
  intros H. ok_inv H. exists c2. auto.
Qed.





(** ** Where the balancer puts an individual *)

Lemma index_of_before (x : Z) (l : list Z) :
  forall j y, (j < index_of Z.eqb x l)%nat -> nth_error l j = Some y -> y <> x.
Proof.
  induction l as [| h t IH]; intros j y; simpl; [lia |].
  destruct (Z.eqb_spec h x) as [-> | Hneq]; [lia |].
  destruct j as [| j]; simpl.
  - intros _ H. injection H as <-. exact Hneq.
  - intros Hlt. apply IH. lia.
Qed.

(** X5: what the balancer returns is the chart it was given with the
    individual either alone in a new last group or appended to the first
    of the smallest groups: every group is at least as large as the one
    that is extended, and every group before it is larger. *)
Theorem balance_opens_a_group_or_fills_the_first_smallest :
  forall (self : SeatingChart) (item : string) (c c' : Chart),
    balance_nested_list self item c = inr c' ->
    c' = c ++ [[item]]
    \/ exists k g,
         nth_error c k = Some g
         /\ c' = extend_at k item c
         /\ (forall g', In g' c -> len g <= len g')
         /\ (forall j g', (j < k)%nat -> nth_error c j = Some g' -> len g < len g').
Proof.
  intros self item c c'. destruct c as [| g0 rest].
  { intros H. ok_inv H. left. reflexivity. }
  destruct (index_min_size_spec g0 rest) as (smallest & Hnth & Hlen).
  destruct (min_of_spec (map len rest) (len g0)) as [Hhead Htail].
  assert (Hmin : forall g', In g' (g0 :: rest) -> len smallest <= len g').
  { rewrite Hlen. intros g' [<- | Hg']; [exact Hhead |].
    apply Htail, in_map, Hg'. }
  unfold balance_nested_list.
  repeat match goal with
         | |- context [if ?b then _ else _] => destruct b
         end;
    intros H; try discriminate; ok_inv H; try (left; reflexivity).
  right.
  exists (index_of Z.eqb (min_of (len g0) (map len rest)) (map len (g0 :: rest))),
    smallest.
  split; [exact Hnth |]. split; [reflexivity |]. split; [exact Hmin |].
  intros j g' Hj Hg'.
  assert (Hneq : len g' <> min_of (len g0) (map len rest)).
  { apply (index_of_before _ (map len (g0 :: rest)) j); [exact Hj |].
    rewrite nth_error_map, Hg'. reflexivity. }
  specialize (Hmin g' (nth_error_In _ _ Hg')). lia.
Qed.

(** X5 on the first assertion of [test_balance_nested_list]. *)
Lemma balance_opens_a_group_or_fills_the_first_smallest_witness :
  [["0"; "0"; "0"; "0"]; ["0"; "0"; "0"]; ["0"; "0"; "1"]]
  = [["0"; "0"; "0"; "0"]; ["0"; "0"; "0"]; ["0"; "0"]] ++ [["1"]]
  \/ exists k g,
       nth_error [["0"; "0"; "0"; "0"]; ["0"; "0"; "0"]; ["0"; "0"]] k = Some g
       /\ [["0"; "0"; "0"; "0"]; ["0"; "0"; "0"]; ["0"; "0"; "1"]]
          = extend_at k "1" [["0"; "0"; "0"; "0"]; ["0"; "0"; "0"]; ["0"; "0"]]
       /\ (forall g',
              In g' [["0"; "0"; "0"; "0"]; ["0"; "0"; "0"]; ["0"; "0"]] ->
              len g <= len g')
       /\ (forall j g',
              (j < k)%nat ->
              nth_error [["0"; "0"; "0"; "0"]; ["0"; "0"; "0"]; ["0"; "0"]] j = Some g' ->
              len g < len g').
Proof.
  apply (balance_opens_a_group_or_fills_the_first_smallest
           (mkSeatingChart None None None None None None)).
  reflexivity.
Defined.

(** ** Charts of a roster without pairs *)

Lemma extend_at_In (index : nat) (item : string) (c : Chart) (g' : Group) :
  In g' (extend_at index item c) ->
  In g' c \/ exists g, nth_error c index = Some g /\ g' = g ++ [item].
Proof.
  revert index. induction c as [| g rest IH]; intros [| i]; simpl; auto.
  - intros [<- | H]; [right; exists g; auto | auto].
  - intros [<- | H]; [auto |].
    destruct (IH i H) as [Hin | Hnew]; auto.
Qed.

Lemma extend_at_balanced (index : nat) (item : string) (c : Chart) (g : Group) :
  nth_error c index = Some g ->
  (forall g', In g' c -> len g <= len g') ->
  balanced c -> balanced (extend_at index item c).
Proof.
  intros Hnth Hmin Hbal g1 g2 H1 H2.
  assert (Hg : In g c) by (eapply nth_error_In, Hnth).
  apply extend_at_In in H1. apply extend_at_In in H2.
  assert (Hnew : forall g0, nth_error c index = Some g0 ->
                            len (g0 ++ [item]) = len g + 1).
  { intros g0 E. rewrite Hnth in E. injection E as <-.
    rewrite len_app. reflexivity. }
  destruct H1 as [H1 | (g1' & E1 & ->)], H2 as [H2 | (g2' & E2 & ->)].
  - now apply Hbal.
  - rewrite (Hnew _ E2). pose proof (Hbal g1 g H1 Hg). lia.
  - rewrite (Hnew _ E1). pose proof (Hmin g2 H2). lia.
  - rewrite (Hnew _ E1), (Hnew _ E2). lia.
Qed.

Lemma singletons_balanced (c : Chart) :
  Forall (fun g => length g = 1%nat) c -> balanced c.
Proof.
  intros Hall g1 g2 H1 H2. rewrite Forall_forall in Hall.
  unfold len. rewrite (Hall g1 H1), (Hall g2 H2). lia.
Qed.

(** With only [num_groups] set: groups are opened while there are fewer
    than [num_groups], all of one member, and the smallest is filled after
    that. *)
Lemma balance_num_groups_only_balanced (self : SeatingChart) (k : Z)
  (item : string) (c c' : Chart) :
  max_size self = None -> num_groups self = Some k ->
  balanced c ->
  (len c < k -> Forall (fun g => length g = 1%nat) c) ->
  balance_nested_list self item c = inr c' ->
  balanced c' /\ (len c' < k -> Forall (fun g => length g = 1%nat) c').
Proof.
  intros Hmax Hnum Hbal Hopen. destruct c as [| g rest].
  - intros H. ok_inv H.
    assert (Hone : Forall (fun g => length g = 1%nat) [[item]])
      by (repeat constructor).
    split; [apply singletons_balanced, Hone | intros _; exact Hone].
  - unfold balance_nested_list. rewrite Hmax, Hnum. cbv beta iota zeta.
    destruct (Z.ltb_spec (len (g :: rest)) k) as [Hlt | Hge]; intros H; ok_inv H.
    + assert (Hone : Forall (fun g0 => length g0 = 1%nat) ((g :: rest) ++ [[item]])).
      { apply Forall_app. split; [apply Hopen, Hlt | repeat constructor]. }
      split; [apply singletons_balanced, Hone | intros _; exact Hone].
    + destruct (index_min_size_spec g rest) as (smallest & Hnth & Hlen).
      destruct (min_of_spec (map len rest) (len g)) as [Hhead Htail].
      split.
      * apply (extend_at_balanced _ item (g :: rest) smallest Hnth); [| exact Hbal].
        rewrite Hlen. intros g' [<- | Hg']; [exact Hhead |].
        apply Htail, in_map, Hg'.
      * unfold len at 1. rewrite extend_at_length. fold (len (g :: rest)). lia.
Qed.

Lemma for_each_balance_num_groups_balanced (self : SeatingChart) (k : Z)
  (items : list string) :
  max_size self = None -> num_groups self = Some k ->
  forall c c',
    balanced c ->
    (len c < k -> Forall (fun g => length g = 1%nat) c) ->
    for_each (balance_nested_list self) items c = inr c' ->
    balanced c'.
Proof.
  intros Hmax Hnum. induction items as [| item items IH]; intros c c' Hbal Hopen;
    cbn [for_each].
  - intros H. ok_inv H. exact Hbal.
  - destruct (balance_nested_list self item c) as [e | c1] eqn:E; cbn [bind];
      [discriminate |].
    destruct (balance_num_groups_only_balanced self k item c c1 Hmax Hnum Hbal Hopen E)
      as [Hbal1 Hopen1].
    apply IH; assumption.
Qed.

(** X15: a roster of distinct individuals with only [num_groups = k] set
    ([k] positive, no pairs, no [max_size]) always yields a chart; it has
    [k] groups, or one group per individual when there are fewer than [k]
    individuals; no two groups differ in size by more than one; and its
    members are the roster, each once. *)
Theorem num_groups_alone_yields_balanced_groups :
  forall (set_order shuffle : list string -> list string),
    (forall l, Permutation (set_order l) (nodup string_dec l)) ->
    (forall l, Permutation (shuffle l) l) ->
    forall (names : list string) (k : Z),
      NoDup names ->
      1 <= k ->
      exists self c,
        init set_order (Some names) None None PyNone (PyInt k) = inr self
        /\ fst (chart set_order shuffle self) = inr c
        /\ len c = Z.min k (len names)
        /\ (forall g1 g2, In g1 c -> In g2 c -> len g1 <= len g2 + 1)
        /\ Permutation (concat c) names.
Proof.
  intros set_order shuffle Hset Hshuffle names k Hnodup Hk.
  set (self := mkSeatingChart None None None (Some k) (Some names) None).
  pose proof (shuffled_roster_perm set_order shuffle names Hset Hshuffle Hnodup)
    as Hperm.
  destruct (for_each_balance_num_groups self k (shuffle (set_order names))
              eq_refl eq_refl Hk []) as (c & Ec & Lc).
  { change (len (@nil (list string))) with 0. lia. }
  assert (Hlen : len (shuffle (set_order names)) = len names).
  { unfold len. f_equal. apply Permutation_length, Hperm. }
  rewrite Hlen in Lc. change (len (@nil (list string))) with 0 in Lc.
  exists self, c. split.
  { unfold init. simpl. replace (k <? 1) with false; [reflexivity |].
    symmetry. apply Z.ltb_ge. lia. }
  split; [| split; [| split]].
  - assert (Ek : (k <? len c) = false) by (apply Z.ltb_ge; lia).
    unfold chart. simpl chart_cache. cbv iota.
    rewrite (generate_chart_without_pairs set_order shuffle self names
               eq_refl eq_refl eq_refl).
    rewrite Ec. simpl. unfold validate_number_of_groups. simpl num_groups.
    cbv beta iota. rewrite Ek. reflexivity.
  - rewrite Lc. f_equal.
  - apply (for_each_balance_num_groups_balanced self k (shuffle (set_order names))
             eq_refl eq_refl [] c);
      [intros g1 g2 [] | intros _; constructor | exact Ec].
  - apply perm_trans with (shuffle (set_order names) ++ concat []).
    + apply for_each_balance_perm with (self := self). exact Ec.
    + simpl. rewrite app_nil_r. exact Hperm.
Qed.

(** X15 on five individuals and [num_groups = 2]. *)
Lemma num_groups_alone_yields_balanced_groups_witness :
  exists self c,
    init insertion_order (Some ["Amy"; "Bob"; "Cara"; "Dan"; "Emma"]) None None
      PyNone (PyInt 2) = inr self
    /\ fst (chart insertion_order no_shuffle self) = inr c
    /\ len c = Z.min 2 (len ["Amy"; "Bob"; "Cara"; "Dan"; "Emma"])
    /\ (forall g1 g2, In g1 c -> In g2 c -> len g1 <= len g2 + 1)
    /\ Permutation (concat c) ["Amy"; "Bob"; "Cara"; "Dan"; "Emma"].
Proof.
  apply (num_groups_alone_yields_balanced_groups insertion_order no_shuffle
           insertion_order_perm no_shuffle_perm
           ["Amy"; "Bob"; "Cara"; "Dan"; "Emma"] 2).
  - repeat constructor; simpl; intuition discriminate.
  - lia.
Defined.

Lemma len_concat_cons (g : Group) (c : Chart) :
  len (concat (g :: c)) = len g + len (concat c).
Proof. simpl. apply len_app. Qed.

Lemma len_concat_bounded (m : Z) (c : Chart) :
  0 <= m -> Forall (fun g => len g <= m) c -> len (concat c) <= len c * m.
Proof.
  intros Hm. induction 1 as [| g rest Hg _ IH].
  - reflexivity.
  - rewrite len_concat_cons, len_cons. lia.
Qed.

Lemma len_concat_all_same (v : Z) (c : Chart) :
  Forall (fun g => len g = v) c -> len (concat c) = len c * v.
Proof.
  induction 1 as [| g rest Hg _ IH].
  - reflexivity.
  - rewrite len_concat_cons, len_cons. lia.
Qed.

Lemma nodup_length_one (l : list Z) (x y : Z) :
  length (nodup Z.eq_dec l) = 1%nat -> In x l -> In y l -> x = y.
Proof.
  intros Hlen Hx Hy.
  apply (nodup_In Z.eq_dec) in Hx. apply (nodup_In Z.eq_dec) in Hy.
  destruct (nodup Z.eq_dec l) as [| v [| w rest]]; try discriminate.
  simpl in Hx, Hy. intuition congruence.
Qed.

(** With both limits set and room left for one more individual, the
    balancer returns without opening a group beyond [num_groups]. *)
Lemma balance_within_capacity (self : SeatingChart) (m n : Z) (item : string)
  (c : Chart) :
  max_size self = Some m -> num_groups self = Some n -> 1 <= m -> 1 <= n ->
  Forall (fun g => len g <= m) c ->
  len c <= n ->
  len (concat c) < n * m ->
  exists c', balance_nested_list self item c = inr c' /\ len c' <= n.
Proof.
  intros Hm Hn Hmpos Hnpos Hall Hcount Hroom. destruct c as [| g rest].
  - exists [[item]]. split; [reflexivity |]. change (len [[item]]) with 1. lia.
  - pose proof (largest_group_bounded m g rest Hall) as Hlargest.
    unfold balance_nested_list. rewrite Hm, Hn. cbv beta iota zeta.
    replace (m <? max_of (len g) (map len rest)) with false
      by (symmetry; apply Z.ltb_ge; exact Hlargest).
    rewrite andb_false_r.
    destruct (Z.ltb_spec (len (g :: rest)) n) as [Hlt | Hge].
    + eexists. split; [reflexivity |].
      rewrite len_app. change (len [[item]]) with 1. lia.
    + destruct ((length (nodup Z.eq_dec (map len (g :: rest))) =? 1)%nat
                && (m <=? max_of (len g) (map len rest)))%bool eqn:E.
      * (* all groups full: there is no room left *)
        exfalso. apply andb_true_iff in E. destruct E as [Esame Efull].
        apply Nat.eqb_eq in Esame. apply Z.leb_le in Efull.
        destruct (max_of_spec (map len rest) (len g)) as [Hhead _].
        assert (Hg : len g = m).
        { apply Forall_cons_iff in Hall. destruct Hall as [Hgm _].
          assert (Hle : max_of (len g) (map len rest) <= len g); [| lia].
          apply max_of_le; [lia |].
          apply Forall_forall. intros z Hz.
          assert (z = len g); [| lia].
          apply (nodup_length_one (map len (g :: rest))); [exact Esame | |].
          - simpl. now right.
          - simpl. now left. }
        assert (Hfull : Forall (fun g0 => len g0 = m) (g :: rest)).
        { apply Forall_forall. intros g' Hg'. rewrite <- Hg.
          apply (nodup_length_one (map len (g :: rest))); [exact Esame | |].
          - apply in_map, Hg'.
          - simpl. now left. }
        rewrite (len_concat_all_same m _ Hfull) in Hroom. nia.
      * eexists. split; [reflexivity |].
        unfold len at 1. rewrite extend_at_length. exact Hcount.
Qed.

Lemma for_each_balance_within_capacity (self : SeatingChart) (m n : Z)
  (items : list string) :
  max_size self = Some m -> num_groups self = Some n -> 1 <= m -> 1 <= n ->
  forall c,
    Forall (fun g => len g <= m) c ->
    len c <= n ->
    len (concat c) + len items <= n * m ->
    exists c', for_each (balance_nested_list self) items c = inr c' /\ len c' <= n.
Proof.
  intros Hm Hn Hmpos Hnpos.
  induction items as [| item items IH]; intros c Hall Hcount Hroom; cbn [for_each].
  - exists c. split; [reflexivity | exact Hcount].
  - rewrite len_cons in Hroom. pose proof (len_nonneg items).
    destruct (balance_within_capacity self m n item c Hm Hn Hmpos Hnpos Hall Hcount)
      as (c1 & E & Hcount1); [lia |].
    rewrite E. cbn [bind]. apply IH.
    + eapply balance_bounded; eassumption.
    + exact Hcount1.
    + pose proof (balance_perm self item c c1 E) as Hperm.
      apply Permutation_length in Hperm. simpl in Hperm.
      unfold len in *. lia.
Qed.

(** X16: a roster of [N] distinct individuals with both limits set and no
    pairs yields a chart exactly when the individuals fit:
    [N <= num_groups * max_size]. *)
Theorem both_limits_yield_a_chart_iff_the_roster_fits :
  forall (set_order shuffle : list string -> list string),
    (forall l, Permutation (set_order l) (nodup string_dec l)) ->
    (forall l, Permutation (shuffle l) l) ->
    forall (names : list string) (m n : Z) (self : SeatingChart),
      NoDup names ->
      init set_order (Some names) None None (PyInt m) (PyInt n) = inr self ->
      (exists c, fst (chart set_order shuffle self) = inr c)
      <-> len names <= n * m.
Proof.
  intros set_order shuffle Hset Hshuffle names m n self Hnodup Hinit.
  assert (Hself : 1 <= m /\ 1 <= n
                  /\ self = mkSeatingChart None None (Some m) (Some n) (Some names) None).
  { unfold init in Hinit. simpl in Hinit.
    destruct (Z.ltb_spec m 1); [discriminate |].
    destruct (Z.ltb_spec n 1); [discriminate |].
    simpl in Hinit. ok_inv Hinit. auto. }
  destruct Hself as (Hmpos & Hnpos & ->).
  set (self := mkSeatingChart None None (Some m) (Some n) (Some names) None).
  pose proof (shuffled_roster_perm set_order shuffle names Hset Hshuffle Hnodup)
    as Hperm.
  assert (Hlen : len (shuffle (set_order names)) = len names).
  { unfold len. f_equal. apply Permutation_length, Hperm. }
  unfold chart. simpl chart_cache. cbv iota.
  rewrite (generate_chart_without_pairs set_order shuffle self names
             eq_refl eq_refl eq_refl).
  split.
  - (* a chart within both limits holds at most [n * m] individuals *)
    intros [c Hc].
    destruct (for_each (balance_nested_list self) (shuffle (set_order names)) [])
      as [e | c3] eqn:E3; cbn [bind] in Hc; [discriminate |].
    unfold validate_number_of_groups in Hc. simpl num_groups in Hc. cbv iota in Hc.
    destruct (Z.ltb_spec n (len c3)) as [| Hcount]; [discriminate |].
    pose proof (for_each_balance_bounded self m _ eq_refl Hmpos [] c3
                  (Forall_nil _) E3) as Hall.
    pose proof (for_each_balance_perm self _ [] c3 E3) as Hmembers.
    apply Permutation_length in Hmembers. rewrite app_nil_r in Hmembers.
    pose proof (len_concat_bounded m c3 ltac:(lia) Hall) as Hsum.
    unfold len in Hlen, Hsum, Hcount |- *. rewrite Hmembers in Hsum.
    assert (Z.of_nat (length c3) * m <= n * m) by nia. lia.
  - intros Hfits.
    destruct (for_each_balance_within_capacity self m n (shuffle (set_order names))
                eq_refl eq_refl Hmpos Hnpos [] (Forall_nil _))
      as (c & E & Hcount).
    + change (len (@nil (list string))) with 0. lia.
    + change (len (concat (@nil (list string)))) with 0. lia.
    + exists c. rewrite E. cbn [bind].
      unfold validate_number_of_groups. simpl num_groups. cbv iota.
      destruct (Z.ltb_spec n (len c)); [lia | reflexivity].
Qed.

(** X16 on five individuals, two groups of at most three. *)
Lemma both_limits_yield_a_chart_iff_the_roster_fits_witness :
  (exists c,
      fst (chart insertion_order no_shuffle
             (mkSeatingChart None None (Some 3) (Some 2)
                (Some ["Amy"; "Bob"; "Cara"; "Dan"; "Emma"]) None)) = inr c)
  <-> len ["Amy"; "Bob"; "Cara"; "Dan"; "Emma"] <= 2 * 3.
Proof.
  apply (both_limits_yield_a_chart_iff_the_roster_fits insertion_order no_shuffle
           insertion_order_perm no_shuffle_perm
           ["Amy"; "Bob"; "Cara"; "Dan"; "Emma"] 3 2).
  - repeat constructor; simpl; intuition discriminate.
  - reflexivity.
Defined.

Lemma balance_without_limits (self : SeatingChart) (item : string) (g : Group) :
  max_size self = None -> num_groups self = None ->
  balance_nested_list self item [g] = inr [g ++ [item]].
Proof.
  intros Hmax Hnum. unfold balance_nested_list. rewrite Hmax, Hnum.
  cbv beta iota zeta. unfold min_of. simpl. rewrite Z.eqb_refl. reflexivity.
Qed.

Lemma for_each_balance_without_limits (self : SeatingChart) (items : list string) :
  max_size self = None -> num_groups self = None ->
  forall g, for_each (balance_nested_list self) items [g] = inr [g ++ items].
Proof.
  intros Hmax Hnum. induction items as [| item items IH]; intros g; cbn [for_each].
  - now rewrite app_nil_r.
  - rewrite (balance_without_limits self item g Hmax Hnum). cbn [bind].
    rewrite IH, <- app_assoc. reflexivity.
Qed.

(** X17: with no pairs and no limit at all, everybody sits in one single
    group, in the shuffled order of the roster; an empty roster gives the
    empty chart. *)
Theorem no_limits_yield_a_single_group :
  forall (set_order shuffle : list string -> list string),
    (forall l, Permutation (set_order l) (nodup string_dec l)) ->
    (forall l, Permutation (shuffle l) l) ->
    forall (names : list string),
      exists self order,
        init set_order (Some names) None None PyNone PyNone = inr self
        /\ Permutation order (nodup string_dec names)
        /\ fst (chart set_order shuffle self)
           = inr (match order with [] => [] | _ :: _ => [order] end).
Proof.
  intros set_order shuffle Hset Hshuffle names.
  set (self := mkSeatingChart None None None None (Some names) None).
  exists self, (shuffle (set_order names)).
  split; [reflexivity |]. split.
  - apply perm_trans with (set_order names); [apply Hshuffle | apply Hset].
  - unfold chart. simpl chart_cache. cbv iota.
    rewrite (generate_chart_without_pairs set_order shuffle self names
               eq_refl eq_refl eq_refl).
    destruct (shuffle (set_order names)) as [| x items]; [reflexivity |].
    cbn [for_each].
    change (balance_nested_list self x []) with (@inr Error (list (list string)) [[x]]).
    cbn [bind].
    rewrite (for_each_balance_without_limits self items eq_refl eq_refl [x]).
    reflexivity.
Qed.

(** X17 at first-insertion order and the identity shuffle. *)
Lemma no_limits_yield_a_single_group_witness :
  exists self order,
    init insertion_order (Some ["Amy"; "Bob"; "Cara"]) None None PyNone PyNone
      = inr self
    /\ Permutation order (nodup string_dec ["Amy"; "Bob"; "Cara"])
    /\ fst (chart insertion_order no_shuffle self)
       = inr (match order with [] => [] | _ :: _ => [order] end).
Proof.
  apply (no_limits_yield_a_single_group insertion_order no_shuffle
           insertion_order_perm no_shuffle_perm ["Amy"; "Bob"; "Cara"]).
Defined.

(** ** Filling groups up to [max_size] *)

Lemma index_of_app_skip (x : Z) (l1 l2 : list Z) :
  Forall (fun y => y <> x) l1 ->
  index_of Z.eqb x (l1 ++ x :: l2) = length l1.
Proof.
  induction 1 as [| y l Hy _ IH]; simpl.
  - now rewrite Z.eqb_refl.
  - destruct (Z.eqb_spec y x) as [E | _]; [contradiction | now rewrite IH].
Qed.

Lemma extend_at_app (item : string) (l1 : Chart) (g : Group) (l2 : Chart) :
  extend_at (length l1) item (l1 ++ g :: l2) = l1 ++ (g ++ [item]) :: l2.
Proof.
  induction l1 as [| h t IH]; simpl; [reflexivity | now rewrite IH].
Qed.

Lemma max_of_const (v : Z) (l : list Z) :
  Forall (fun z => z = v) l -> max_of v l = v.
Proof.
  unfold max_of. induction 1 as [| z l Hz _ IH]; simpl; [reflexivity |].
  subst z. rewrite Z.max_id. exact IH.
Qed.

Lemma filled_new_group (m : Z) (item : string) (fulls : Chart) :
  1 <= m -> Forall (fun g => len g = m) fulls -> filled m (fulls ++ [[item]]).
Proof.
  intros Hm Hfull. destruct (Z.eq_dec m 1) as [-> | Hneq].
  - exists (fulls ++ [[item]]), []. rewrite app_nil_r.
    split; [reflexivity |]. split; [| now left].
    apply Forall_app. split; [exact Hfull | repeat constructor].
  - exists fulls, [[item]]. split; [reflexivity |]. split; [exact Hfull |].
    right. exists [item]. split; [reflexivity |]. change (len [item]) with 1. lia.
Qed.

(** With only [max_size] set, the balancer keeps the chart filled: it fills
    the last group while that is not full, and opens a group otherwise. *)
Lemma balance_max_size_only (self : SeatingChart) (m : Z) (item : string)
  (c : Chart) :
  max_size self = Some m -> num_groups self = None -> 1 <= m ->
  filled m c ->
  exists c', balance_nested_list self item c = inr c' /\ filled m c'.
Proof.
  intros Hmax Hnum Hm (fulls & partial & -> & Hfull & [-> | (p & -> & Hp)]).
  - (* every group is full: a group is opened *)
    rewrite app_nil_r. exists (fulls ++ [[item]]).
    split; [| now apply filled_new_group].
    destruct fulls as [| g rest]; [reflexivity |].
    apply Forall_cons_iff in Hfull. destruct Hfull as [Hg Hrest].
    assert (Hsizes : Forall (fun z => z = m) (map len rest)).
    { apply Forall_forall. intros z Hz. apply in_map_iff in Hz.
      destruct Hz as (g' & <- & Hg'). rewrite Forall_forall in Hrest. auto. }
    unfold balance_nested_list. rewrite Hmax, Hnum. cbv beta iota zeta.
    change (map len (g :: rest)) with (len g :: map len rest).
    rewrite Hg, (max_of_const m _ Hsizes), (nodup_const m _ Hsizes).
    rewrite Z.ltb_irrefl, Z.leb_refl. reflexivity.
  - (* the last group has room: it is filled *)
    exists (fulls ++ [p ++ [item]]). split.
    + destruct (fulls ++ [p]) as [| g0 rest0] eqn:Ec;
        [destruct fulls; discriminate |].
      assert (Hall : Forall (fun g => len g <= m) (g0 :: rest0)).
      { rewrite <- Ec. apply Forall_app. split.
        - apply Forall_forall. intros g Hg. rewrite Forall_forall in Hfull.
          rewrite (Hfull g Hg). lia.
        - repeat constructor. lia. }
      pose proof (largest_group_bounded m g0 rest0 Hall) as Hlargest.
      assert (Hsizes : map len (g0 :: rest0) = map len fulls ++ [len p]).
      { rewrite <- Ec, map_app. reflexivity. }
      assert (Hp_in : In (len p) (map len (g0 :: rest0))).
      { rewrite Hsizes. apply in_or_app. right. now left. }
      destruct (min_of_spec (map len rest0) (len g0)) as [Hmin_head Hmin_tail].
      assert (Hmin : min_of (len g0) (map len rest0) = len p).
      { assert (Hle : min_of (len g0) (map len rest0) <= len p).
        { destruct Hp_in as [<- | Hin]; [exact Hmin_head | now apply Hmin_tail]. }
        pose proof (min_of_In (map len rest0) (len g0)) as Hin.
        change (len g0 :: map len rest0) with (map len (g0 :: rest0)) in Hin.
        rewrite Hsizes in Hin. apply in_app_or in Hin.
        destruct Hin as [Hin | [Hin | []]]; [| now symmetry].
        apply in_map_iff in Hin. destruct Hin as (g & Hg & Hgin).
        rewrite Forall_forall in Hfull. rewrite (Hfull g Hgin) in Hg. lia. }
      assert (Hidx : index_of Z.eqb (len p) (map len (g0 :: rest0)) = length fulls).
      { rewrite Hsizes, index_of_app_skip, length_map; [reflexivity |].
        apply Forall_forall. intros z Hz. apply in_map_iff in Hz.
        destruct Hz as (g & <- & Hg). rewrite Forall_forall in Hfull.
        rewrite (Hfull g Hg). lia. }
      unfold balance_nested_list. rewrite Hmax, Hnum. cbv beta iota zeta.
      replace (m <? max_of (len g0) (map len rest0)) with false
        by (symmetry; apply Z.ltb_ge; exact Hlargest).
      rewrite Hmin, Hidx.
      destruct ((length (nodup Z.eq_dec (map len (g0 :: rest0))) =? 1)%nat
                && (m <=? max_of (len g0) (map len rest0)))%bool eqn:E.
      * (* all groups of one size: that of the last, below [m] *)
        exfalso. apply andb_true_iff in E. destruct E as [Esame Efull].
        apply Nat.eqb_eq in Esame. apply Z.leb_le in Efull.
        assert (Hle : max_of (len g0) (map len rest0) <= len p); [| lia].
        apply max_of_le.
        { assert (len g0 = len p); [| lia].
          apply (nodup_length_one (map len (g0 :: rest0))); [exact Esame | | exact Hp_in].
          simpl. now left. }
        apply Forall_forall. intros z Hz.
        assert (z = len p); [| lia].
        apply (nodup_length_one (map len (g0 :: rest0))); [exact Esame | | exact Hp_in].
        simpl. now right.
      * rewrite <- Ec, extend_at_app. reflexivity.
    + destruct (Z.eq_dec (len p + 1) m) as [Efull | Hroom].
      * exists (fulls ++ [p ++ [item]]), []. rewrite app_nil_r.
        split; [reflexivity |]. split; [| now left].
        apply Forall_app. split; [exact Hfull |]. repeat constructor.
        rewrite len_app. exact Efull.
      * exists fulls, [p ++ [item]]. split; [reflexivity |]. split; [exact Hfull |].
        right. exists (p ++ [item]). split; [reflexivity |].
        rewrite len_app. change (len [item]) with 1. lia.
Qed.

Lemma for_each_balance_max_size_only (self : SeatingChart) (m : Z)
  (items : list string) :
  max_size self = Some m -> num_groups self = None -> 1 <= m ->
  forall c,
    filled m c ->
    exists c', for_each (balance_nested_list self) items c = inr c' /\ filled m c'.
Proof.
  intros Hmax Hnum Hm. induction items as [| item items IH]; intros c Hc;
    cbn [for_each].
  - exists c. split; [reflexivity | exact Hc].
  - destruct (balance_max_size_only self m item c Hmax Hnum Hm Hc) as (c1 & E & Hc1).
    rewrite E. cbn [bind]. apply IH, Hc1.
Qed.

(** A filled chart of [N] members has [N / m] groups, rounded up. *)
Lemma filled_count (m : Z) (c : Chart) :
  1 <= m -> filled m c -> len c = (len (concat c) + m - 1) / m.
Proof.
  intros Hm (fulls & partial & -> & Hfull & Hpartial).
  rewrite concat_app, !len_app, (len_concat_all_same m fulls Hfull).
  destruct Hpartial as [-> | (p & -> & Hp)].
  - change (len (concat (@nil (list string)))) with 0.
    change (len (@nil (list string))) with 0.
    apply (Z.div_unique _ _ _ (m - 1)); [lia | nia].
  - cbn [concat]. rewrite app_nil_r. change (len [p]) with 1.
    apply (Z.div_unique _ _ _ (len p - 1)); [lia | nia].
Qed.

(** X18: a roster of [N] distinct individuals with only [max_size = m] set
    ([m] positive, no pairs, no [num_groups]) always yields a chart; its
    groups have exactly [m] members each, except that the last one may have
    fewer (but is not empty); it therefore has [N / m] groups, rounded up;
    and its members are the roster, each once. *)
Theorem max_size_alone_fills_groups_in_turn :
  forall (set_order shuffle : list string -> list string),
    (forall l, Permutation (set_order l) (nodup string_dec l)) ->
    (forall l, Permutation (shuffle l) l) ->
    forall (names : list string) (m : Z),
      NoDup names ->
      1 <= m ->
      exists self c,
        init set_order (Some names) None None (PyInt m) PyNone = inr self
        /\ fst (chart set_order shuffle self) = inr c
        /\ filled m c
        /\ len c = (len names + m - 1) / m
        /\ Permutation (concat c) names.
Proof.
  intros set_order shuffle Hset Hshuffle names m Hnodup Hm.
  set (self := mkSeatingChart None None (Some m) None (Some names) None).
  pose proof (shuffled_roster_perm set_order shuffle names Hset Hshuffle Hnodup)
    as Hperm.
  destruct (for_each_balance_max_size_only self m (shuffle (set_order names))
              eq_refl eq_refl Hm []) as (c & Ec & Hc).
  { exists [], []. split; [reflexivity |]. split; [constructor | now left]. }
  assert (Hmembers : Permutation (concat c) names).
  { apply perm_trans with (shuffle (set_order names) ++ concat []).
    - apply for_each_balance_perm with (self := self). exact Ec.
    - simpl. rewrite app_nil_r. exact Hperm. }
  exists self, c. split.
  { unfold init. simpl. replace (m <? 1) with false; [reflexivity |].
    symmetry. apply Z.ltb_ge. lia. }
  split; [| split; [exact Hc | split; [| exact Hmembers]]].
  - unfold chart. simpl chart_cache. cbv iota.
    rewrite (generate_chart_without_pairs set_order shuffle self names
               eq_refl eq_refl eq_refl).
    rewrite Ec. reflexivity.
  - rewrite (filled_count m c Hm Hc). do 3 f_equal.
    unfold len. f_equal. apply Permutation_length, Hmembers.
Qed.

(** X18 on five individuals and [max_size = 2]. *)
Lemma max_size_alone_fills_groups_in_turn_witness :
  exists self c,
    init insertion_order (Some ["Amy"; "Bob"; "Cara"; "Dan"; "Emma"]) None None
      (PyInt 2) PyNone = inr self
    /\ fst (chart insertion_order no_shuffle self) = inr c
    /\ filled 2 c
    /\ len c = (len ["Amy"; "Bob"; "Cara"; "Dan"; "Emma"] + 2 - 1) / 2
    /\ Permutation (concat c) ["Amy"; "Bob"; "Cara"; "Dan"; "Emma"].
Proof.
  apply (max_size_alone_fills_groups_in_turn insertion_order no_shuffle
           insertion_order_perm no_shuffle_perm
           ["Amy"; "Bob"; "Cara"; "Dan"; "Emma"] 2).
  - repeat constructor; simpl; intuition discriminate.
  - lia.
Defined.

(** ** The printed chart *)

Lemma string_append_assoc (s1 s2 s3 : string) :
  String.append (String.append s1 s2) s3 = String.append s1 (String.append s2 s3).
Proof.
  induction s1 as [| ch s1 IH]; simpl; [reflexivity | now rewrite IH].
Qed.

Lemma string_append_nil_r (s : string) : String.append s "" = s.
Proof.
  induction s as [| ch s IH]; simpl; [reflexivity | now rewrite IH].
Qed.

Lemma occurs_refl (x : string) : occurs x x.
Proof. exists "", "". simpl. now rewrite string_append_nil_r. Qed.

Lemma occurs_append_l (x s t : string) : occurs x s -> occurs x (String.append s t).
Proof.
  intros (before & after & ->). exists before, (String.append after t).
  now rewrite !string_append_assoc.
Qed.

Lemma occurs_append_r (x s t : string) : occurs x t -> occurs x (String.append s t).
Proof.
  intros (before & after & ->). exists (String.append s before), after.
  now rewrite !string_append_assoc.
Qed.

Lemma occurs_concat (sep x : string) (l : list string) :
  In x l -> occurs x (String.concat sep l).
Proof.
  induction l as [| y l IH]; [intros [] |].
  intros Hin. destruct l as [| z l].
  - destruct Hin as [-> | []]. apply occurs_refl.
  - change (String.concat sep (y :: z :: l))
      with (String.append y (String.append sep (String.concat sep (z :: l)))).
    destruct Hin as [-> | Hin].
    + apply occurs_append_l, occurs_refl.
    + apply occurs_append_r, occurs_append_r, IH, Hin.
Qed.

Lemma in_removelast_or_last (x : string) (l : list string) :
  In x l -> In x (removelast l) \/ x = last l "".
Proof.
  intros Hin. destruct l as [| y l]; [contradiction |].
  assert (Hne : y :: l <> []) by discriminate.
  rewrite (app_removelast_last "" Hne) in Hin at 1.
  apply in_app_or in Hin. destruct Hin as [Hin | [<- | []]]; auto.
Qed.

(** Every member of a group is named in its rendering. *)
Lemma list_to_oxford_comma_names (group : Group) (x : string) :
  In x group -> occurs x (list_to_oxford_comma group).
Proof.
  intros Hin. unfold list_to_oxford_comma.
  destruct (length group <? 2)%nat; [now apply occurs_concat |].
  destruct (length group =? 2)%nat; [now apply occurs_concat |].
  destruct (in_removelast_or_last x group Hin) as [Hinit | ->].
  - apply occurs_append_l, occurs_concat, Hinit.
  - apply occurs_append_r, occurs_append_r, occurs_refl.
Qed.

Lemma group_lines_names (c : Chart) :
  forall (index : nat) (g : Group) (x : string),
    In g c -> In x g -> occurs x (group_lines index c).
Proof.
  induction c as [| group rest IH]; intros index g x Hg Hx; [contradiction |].
  cbn [group_lines]. destruct Hg as [-> | Hg].
  - apply occurs_append_l, occurs_append_r, occurs_append_l.
    apply list_to_oxford_comma_names, Hx.
  - apply occurs_append_r. eapply IH; eassumption.
Qed.

(** X19: when the chart of an object can be read, [pretty()] returns a text
    that names every individual placed in the chart, leaves the object as
    the read of the chart leaves it, and returns the same text on every
    later call, whatever the shuffle. *)
Theorem pretty_names_everyone_placed :
  forall (set_order shuffle shuffle' : list string -> list string)
         (self self' : SeatingChart) (c : Chart),
    chart set_order shuffle self = (inr c, self') ->
    exists text,
      pretty set_order shuffle self = (inr text, self')
      /\ pretty set_order shuffle' self' = (inr text, self')
      /\ forall g x, In g c -> In x g -> occurs x text.
Proof.
  intros set_order shuffle shuffle' self self' c H.
  pose proof (chart_effect _ _ _ _ _ H) as (_ & Hcache & _).
  eexists. split; [| split].
  - unfold pretty. rewrite H. reflexivity.
  - unfold pretty. rewrite (chart_cached set_order shuffle' self' c Hcache).
    reflexivity.
  - intros g x Hg Hx. apply occurs_append_r. eapply group_lines_names; eassumption.
Qed.

(** X19 on the fixtures. *)
Lemma pretty_names_everyone_placed_witness :
  exists text,
    pretty insertion_order no_shuffle fixture_object
    = (inr text,
       mkSeatingChart (together fixture_object) (apart fixture_object) None None
         (roster fixture_object) (Some fixture_chart))
    /\ pretty insertion_order no_shuffle
         (mkSeatingChart (together fixture_object) (apart fixture_object) None None
            (roster fixture_object) (Some fixture_chart))
       = (inr text,
          mkSeatingChart (together fixture_object) (apart fixture_object) None None
            (roster fixture_object) (Some fixture_chart))
    /\ forall g x, In g fixture_chart -> In x g -> occurs x text.
Proof.
  apply (pretty_names_everyone_placed insertion_order no_shuffle no_shuffle
           fixture_object).
  vm_compute. reflexivity.
Defined.

(** The text of the fixtures' chart, line by line. *)
Example pretty_fixture_chart :
  fst (pretty insertion_order no_shuffle fixture_object)
  = inr (String.concat newline
           ["Seating Chart:";
            "    Group 1: Amy, Bob, Felix, and Cara";
            "    Group 2: Gail, Hank, Dan, and Emma";
            ""]).
Proof. vm_compute. reflexivity. Qed.

(** X20: the rendering of a group: nothing for no member, the name for one,
    the two names joined by " and " for two, and for more the names joined
    by ", " with ", and " before the last. *)
Theorem list_to_oxford_comma_formats :
  forall (a b : string) (first : list string) (last_name : string),
    list_to_oxford_comma [] = ""
    /\ list_to_oxford_comma [a] = a
    /\ list_to_oxford_comma [a; b] = String.append a (String.append " and " b)
    /\ ((2 <= length first)%nat ->
        list_to_oxford_comma (first ++ [last_name])
        = String.append (String.concat ", " first)
            (String.append ", and " last_name)).
Proof.
  intros a b first last_name. repeat split.
  intros Hlen. unfold list_to_oxford_comma.
  rewrite length_app, removelast_last, last_last. simpl length.
  replace (length first + 1 <? 2)%nat with false
    by (symmetry; apply Nat.ltb_ge; lia).
  replace (length first + 1 =? 2)%nat with false
    by (symmetry; apply Nat.eqb_neq; lia).
  reflexivity.
Qed.

(** X20 on three names. *)
Lemma list_to_oxford_comma_formats_witness :
  list_to_oxford_comma [] = ""
  /\ list_to_oxford_comma ["Amy"] = "Amy"
  /\ list_to_oxford_comma ["Amy"; "Bob"]
     = String.append "Amy" (String.append " and " "Bob")
  /\ ((2 <= length ["Amy"; "Bob"])%nat ->
      list_to_oxford_comma (["Amy"; "Bob"] ++ ["Cara"])
      = String.append (String.concat ", " ["Amy"; "Bob"])
          (String.append ", and " "Cara")).
Proof.
  exact (list_to_oxford_comma_formats "Amy" "Bob" ["Amy"; "Bob"] "Cara").
Defined.

(** ** The order of the together stage's groups *)

Lemma insert_by_len_HdRel (g0 g : Group) (l : Chart) :
  (length g <= length g0)%nat ->
  HdRel (fun g1 g2 => len g2 <= len g1) g0 l ->
  HdRel (fun g1 g2 => len g2 <= len g1) g0 (insert_by_len g l).
Proof.
  intros Hle Hhd. destruct l as [| h t]; simpl.
  - constructor. unfold len. lia.
  - destruct (length h <=? length g)%nat; constructor.
    + unfold len. lia.
    + inversion Hhd; assumption.
Qed.

Lemma insert_by_len_sorted (g : Group) (l : Chart) :
  Sorted (fun g1 g2 => len g2 <= len g1) l ->
  Sorted (fun g1 g2 => len g2 <= len g1) (insert_by_len g l).
Proof.
  induction 1 as [| h t Hsorted IH Hhd]; simpl.
  - repeat constructor.
  - destruct (Nat.leb_spec (length h) (length g)) as [Hle | Hgt].
    + constructor; [constructor; assumption |]. constructor. unfold len. lia.
    + constructor; [exact IH |]. apply insert_by_len_HdRel; [lia | exact Hhd].
Qed.

(** X21: the groups that the together stage returns come by size, largest
    first: each group has at least as many members as the next. *)
Theorem handle_together_largest_first :
  forall (set_order : list string -> list string) (self : SeatingChart),
    Sorted (fun g1 g2 => len g2 <= len g1) (handle_together set_order self).
Proof.
  intros set_order self. unfold handle_together.
  destruct (together self) as [pairs |]; [| constructor].
  unfold sorted_by_len_desc.
  induction (fold_left (together_step set_order) pairs []) as [| g l IH]; simpl.
  - constructor.
  - apply insert_by_len_sorted, IH.
Qed.

(** ** Where an individual of an apart pair is put *)





